(** * The retry-loop guard [ToolExecutionValidator]

    A shallow embedding of the tool execution validator: the fingerprint
    generator [generateToolKey] (built on [Object.keys], [Array.prototype.sort]
    and [JSON.stringify] with a replacer array), the failure record store (a
    [Map<string, FailureInfo>]), the validation engine and the diagnostic
    reconciliation pass.

    Modelling conventions.
    - A parameter structure of type [unknown] is a [JS.value]: the JSON data
      a tool call carries.  Numbers are the integers (as [Z]), strings are
      sequences of code units below 256, an object is the list of its own
      enumerable properties in enumeration order, its prototype being
      [Object.prototype].
    - A call either returns or throws ([outcome]); a method of the class runs
      in the monad [M], which threads the instance and the wall clock and
      keeps the mutations done before a throw.
    - [Date.now()] is the action [Date_now]: every call consumes the next
      reading of the clock, so two reads within one method may differ.
    - Limits of the model.  Integers are printed in full, as JavaScript
      does below [10^21].  The recursion of [JSON.stringify] has no stack
      limit: on parameters nested so deeply that an engine throws a
      [RangeError], the model returns.  The map lists its entries in the
      order of the keys where a [Map] lists them in insertion order; this
      shows only in [activeFailures] when the clock moves during
      [getFailureStats].  [===] on two objects or arrays is [false], the
      operands being separate allocations.
    - A stored record is an object that the map alone holds under one key,
      each [recordFailure] allocating a new one: its mutation in place is the
      update of the map at that key.  The guard never writes to the
      [errorInfo] it was given. *)

From Stdlib Require Import ZArith Ascii String DecimalString DecimalPos Lia.
From stdpp Require Import gmap strings list fin_maps sorting.

Local Open Scope Z_scope.

(** ** Completion of a call *)

Inductive exn : Type :=
| TypeError (message : string).

Inductive outcome (A : Type) : Type :=
| Return (a : A)
| Throw (e : exn).
Arguments Return {A} a.
Arguments Throw {A} e.

#[global] Instance outcome_ret : MRet outcome := λ A a, Return a.
#[global] Instance outcome_bind : MBind outcome := λ A B f m,
  match m with
  | Return a => f a
  | Throw e => Throw e
  end.

(** ** JavaScript values and the built-ins the guard calls *)

Module JS.

#[warnings="-register-all"]
Inductive value : Type :=
| Undefined
| Null
| Bool (b : bool)
| Num (n : Z)
| Str (s : string)
| Arr (elems : list value)
| Obj (props : list (string * value)).

Definition dquote : ascii := ascii_of_nat 34.
Definition backslash : ascii := ascii_of_nat 92.
Definition char (c : ascii) : string := String c EmptyString.

(** [ToString] of an array index and of an integral number. *)
Definition index_string (i : nat) : string :=
  NilZero.string_of_uint (Nat.to_uint i).

Definition Number_toString (n : Z) : string :=
  NilZero.string_of_int (Z.to_int n).

(** [ToBoolean]. *)
Definition ToBoolean (v : value) : bool :=
  match v with
  | Undefined | Null => false
  | Bool b => b
  | Num n => negb (n =? 0)
  | Str s => negb (String.eqb s EmptyString)
  | Arr _ | Obj _ => true
  end.

(** [a === b].  Two primitives are compared by value.  Objects and arrays
    are compared by identity: the operands met here (a property of a stored
    error context against a property of a traced call) are separate
    allocations, so the comparison is [false]. *)
Definition strict_equals (a b : value) : bool :=
  match a, b with
  | Undefined, Undefined => true
  | Null, Null => true
  | Bool x, Bool y => Bool.eqb x y
  | Num x, Num y => x =? y
  | Str x, Str y => String.eqb x y
  | _, _ => false
  end.

(** The own property [P] of a property list (the first binding wins). *)
Fixpoint own {A : Type} (props : list (string * A)) (P : string) : option A :=
  match props with
  | [] => None
  | (k, x) :: rest => if String.eqb k P then Some x else own rest P
  end.

(** [v?.P] for a property name [P] that no built-in prototype defines
    (here [file_path] and [filePath]): [undefined] on [undefined] and [null],
    the own property of an object, [undefined] on everything else. *)
Definition optional_get (v : value) (P : string) : value :=
  match v with
  | Obj props => default Undefined (own props P)
  | _ => Undefined
  end.

(** [Object.keys(o)]: [ToObject] throws on [undefined] and [null]; a boolean
    or a number has no own enumerable property; a string and an array have
    their indices; an object has its own property names. *)
Definition Object_keys (o : value) : outcome (list string) :=
  match o with
  | Undefined | Null =>
      Throw (TypeError "Cannot convert undefined or null to object")
  | Bool _ | Num _ => Return []
  | Str s => Return (index_string <$> seq 0 (String.length s))
  | Arr elems => Return (index_string <$> seq 0 (length elems))
  | Obj props => Return (props.*1)
  end.

(** [Array.prototype.sort()] without a comparator on an array of strings:
    ascending order of code units.  The result is the unique sorted
    permutation, whichever algorithm an engine runs. *)
Definition Array_sort (a : list string) : list string :=
  merge_sort String.le a.

(** [QuoteJSONString]. *)
Definition hex_digit (n : nat) : ascii :=
  ascii_of_nat (if (n <? 10)%nat then 48 + n else 87 + n)%nat.

Definition UnicodeEscape (n : nat) : string :=
  String backslash
    ("u00" +:+ char (hex_digit (n / 16)%nat) +:+ char (hex_digit (n mod 16)%nat)).

Definition quote_code_unit (c : ascii) : string :=
  let n := nat_of_ascii c in
  if (n =? 8)%nat then String backslash "b"
  else if (n =? 9)%nat then String backslash "t"
  else if (n =? 10)%nat then String backslash "n"
  else if (n =? 12)%nat then String backslash "f"
  else if (n =? 13)%nat then String backslash "r"
  else if (n =? 34)%nat then String backslash (char dquote)
  else if (n =? 92)%nat then String backslash (char backslash)
  else if (n <? 32)%nat then UnicodeEscape n
  else char c.

Fixpoint quote_code_units (s : string) : string :=
  match s with
  | EmptyString => EmptyString
  | String c rest => quote_code_unit c +:+ quote_code_units rest
  end.

Definition QuoteJSONString (s : string) : string :=
  String dquote (quote_code_units s +:+ char dquote).

(** The [PropertyList] that [JSON.stringify] builds from a replacer array of
    strings: its elements in order, later duplicates dropped. *)
Fixpoint PropertyList (replacer : list string) : list string :=
  match replacer with
  | [] => []
  | P :: rest => P :: filter (λ Q, Q ≠ P) (PropertyList rest)
  end.

(** What [Object.prototype] serializes to under a property list holding
    [__proto__]: its [__proto__] is [null], its other properties are
    functions. *)
Definition Object_prototype_json : string :=
  "{" +:+ QuoteJSONString "__proto__" +:+ ":null}".

(** [SerializeJSONProperty(state, P, holder)] once the own properties of the
    holder are serialized: [Get(holder, P)] finds the own property, or else
    what [Object.prototype] has under that name, which is a function
    (serialized to [undefined]) or, for [__proto__], the prototype itself. *)
Definition Get_serialized (props : list (string * option string)) (P : string)
  : option string :=
  match own props P with
  | Some strP => strP
  | None => if String.eqb P "__proto__" then Some Object_prototype_json else None
  end.

Definition member (props : list (string * option string)) (P : string)
  : option string :=
  (λ strP, QuoteJSONString P +:+ ":" +:+ strP) <$> Get_serialized props P.

(** [SerializeJSONProperty] under the property list [K], with no gap and no
    replacer function; [None] is [undefined].  An array ignores [K] and
    prints [null] for an [undefined] element; an object prints, in the order
    of [K], the properties named in [K] whose value is not [undefined]. *)
Fixpoint SerializeJSONProperty (K : list string) (v : value) : option string :=
  match v with
  | Undefined => None
  | Null => Some "null"
  | Bool true => Some "true"
  | Bool false => Some "false"
  | Num n => Some (Number_toString n)
  | Str s => Some (QuoteJSONString s)
  | Arr elems =>
      Some ("[" +:+
            String.concat ","
              (map (λ e, default "null" (SerializeJSONProperty K e)) elems)
            +:+ "]")
  | Obj props =>
      let serialized :=
        map (λ kv, (fst kv, SerializeJSONProperty K (snd kv))) props in
      Some ("{" +:+ String.concat "," (omap (member serialized) K) +:+ "}")
  end.

(** [JSON.stringify(value, replacer)] for a replacer that is an array of
    strings. *)
Definition JSON_stringify (v : value) (replacer : list string) : option string :=
  SerializeJSONProperty (PropertyList replacer) v.

(** A value substituted in a template literal. *)
Definition template (s : option string) : string := default "undefined" s.

End JS.

(** ** The fingerprint generator *)

Definition generateToolKey (toolName : string) (params : JS.value)
  : outcome string :=
  keys ← JS.Object_keys params;
  let paramsString := JS.JSON_stringify params (JS.Array_sort keys) in
  mret (toolName +:+ ":" +:+ JS.template paramsString).

(** Two parameter structures with the same key/value pairs at every depth,
    the properties of an object listed in any order: primitives are equal,
    arrays agree element by element, and the properties of the second
    object are, in some order, those of the first with reordered values.  An
    object has each of its property names once. *)
#[warnings="-register-all"]
Inductive reordered : JS.value → JS.value → Prop :=
| reordered_Undefined : reordered JS.Undefined JS.Undefined
| reordered_Null : reordered JS.Null JS.Null
| reordered_Bool b : reordered (JS.Bool b) (JS.Bool b)
| reordered_Num n : reordered (JS.Num n) (JS.Num n)
| reordered_Str s : reordered (JS.Str s) (JS.Str s)
| reordered_Arr elems elems' :
    Forall2 reordered elems elems' →
    reordered (JS.Arr elems) (JS.Arr elems')
| reordered_Obj props props' props'' :
    NoDup props.*1 →
    Forall2 (λ p q, p.1 = q.1 ∧ reordered p.2 q.2) props props' →
    props' ≡ₚ props'' →
    reordered (JS.Obj props) (JS.Obj props'').

(** ** Records of the guard *)

Module ToolErrorInfo.
(** Modelled from the spec: the interface [ToolErrorInfo] is imported from
    the tools module, whose declaration is not part of the sources.  It has
    at least a [code], a free-form [context] (a key-value mapping, here the
    JavaScript value that [errorInfo.context] evaluates to, [undefined] when
    absent) and a [requiredActions] list of remediation hints. *)
Record t : Type := mk {
  code : string;
  context : JS.value;
  requiredActions : list string
}.
End ToolErrorInfo.

Module FailureInfo.
Record t : Type := mk {
  timestamp : Z;
  errorInfo : ToolErrorInfo.t;
  requiredActions : list string;
  wasAddressed : bool
}.

(** [failure.wasAddressed = b]. *)
Definition set_wasAddressed (b : bool) (failure : t) : t :=
  mk (timestamp failure) (errorInfo failure) (requiredActions failure) b.
End FailureInfo.

Module ValidationResult.
Record t : Type := mk {
  allowed : bool;
  reason : option string;
  requiredActions : option (list string);
  previousFailure : option FailureInfo.t
}.
End ValidationResult.

Module ToolCall.
(** An element of the trace given to [detectDiagnosticActions]. *)
Record t : Type := mk {
  name : string;
  params : JS.value;
  success : bool
}.
End ToolCall.

(** The instance: the private map and the two read-only windows. *)
Record ToolExecutionValidator : Type := mkValidator {
  recentFailures : gmap string FailureInfo.t;
  failureTimeoutMs : Z;
  maxFailureAge : Z
}.

(** The constructor; an omitted argument takes its default. *)
Definition constructor (failureTimeoutMs maxFailureAge : option Z)
  : ToolExecutionValidator :=
  {| recentFailures := ∅;
     failureTimeoutMs := default 30000 failureTimeoutMs;
     maxFailureAge := default 300000 maxFailureAge |}.

(** ** The monad of the methods *)

(** The instance [this], the wall clock as the sequence of its readings, and
    the number of readings taken so far. *)
Record world : Type := mkWorld {
  this : ToolExecutionValidator;
  clock : nat → Z;
  reads : nat
}.

Definition M (A : Type) : Type := world → outcome A * world.

#[global] Instance M_ret : MRet M := λ A a w, (Return a, w).
#[global] Instance M_bind : MBind M := λ A B f m w,
  match m w with
  | (Return a, w') => f a w'
  | (Throw e, w') => (Throw e, w')
  end.

(** A call of a function that has no effect but may throw. *)
Definition call {A : Type} (o : outcome A) : M A := λ w, (o, w).

(** The world after one more reading of the clock. *)
Definition tick (w : world) : world :=
  mkWorld (this w) (clock w) (S (reads w)).

(** [Date.now()]. *)
Definition Date_now : M Z := λ w, (Return (clock w (reads w)), tick w).

Definition get_this : M ToolExecutionValidator := λ w, (Return (this w), w).

(** The world once the map [this.recentFailures] holds [m]. *)
Definition set_recentFailures (m : gmap string FailureInfo.t) (w : world) : world :=
  mkWorld (mkValidator m (failureTimeoutMs (this w)) (maxFailureAge (this w)))
          (clock w) (reads w).

(** A mutation of the map [this.recentFailures]. *)
Definition update_recentFailures
    (f : gmap string FailureInfo.t → gmap string FailureInfo.t) : M unit := λ w,
  (Return tt, set_recentFailures (f (recentFailures (this w))) w).

(** [for (const x of xs) body]. *)
Fixpoint for_of {A : Type} (xs : list A) (body : A → M unit) : M unit :=
  match xs with
  | [] => mret tt
  | x :: rest => body x;; for_of rest body
  end.

(** [this.recentFailures.entries()].  A [Map] iterates in insertion order;
    the map of the model lists its entries in another order, which no result
    below depends on: the loops over the entries act on each key on its own. *)
Definition entries : M (list (string * FailureInfo.t)) :=
  self ← get_this; mret (map_to_list (recentFailures self)).

(** ** The methods *)

(** [Math.round(t / 1000)] for an integral [t]: the nearest integer, a half
    rounding up. *)
Definition Math_round_thousandth (t : Z) : Z := (t + 500) / 1000.

Definition cleanupOldFailures : M unit :=
  now ← Date_now;
  self ← get_this;
  es ← entries;
  for_of es (λ '(key, failure),
    if bool_decide (now - FailureInfo.timestamp failure > maxFailureAge self)
    then update_recentFailures (delete key)
    else mret tt).

Definition blocked_reason (timeSinceFailure : Z) : string :=
  "Previous identical tool call failed "
  +:+ JS.Number_toString (Math_round_thousandth timeSinceFailure)
  +:+ "s ago and required actions have not been addressed.".

Definition validateBeforeExecution (toolName : string) (params : JS.value)
  : M ValidationResult.t :=
  cleanupOldFailures;;
  key ← call (generateToolKey toolName params);
  self ← get_this;
  match recentFailures self !! key with
  | None => mret (ValidationResult.mk true None None None)
  | Some recentFailure =>
      now ← Date_now;
      let timeSinceFailure := now - FailureInfo.timestamp recentFailure in
      if bool_decide (timeSinceFailure < failureTimeoutMs self)
         && negb (FailureInfo.wasAddressed recentFailure)
      then mret (ValidationResult.mk false
                   (Some (blocked_reason timeSinceFailure))
                   (Some (FailureInfo.requiredActions recentFailure))
                   (Some recentFailure))
      else mret (ValidationResult.mk true None None None)
  end.

Definition recordFailure (toolName : string) (params : JS.value)
    (errorInfo : ToolErrorInfo.t) : M unit :=
  key ← call (generateToolKey toolName params);
  now ← Date_now;
  let failureInfo :=
    FailureInfo.mk now errorInfo (ToolErrorInfo.requiredActions errorInfo) false in
  update_recentFailures (insert key failureInfo).

Definition recordSuccess (toolName : string) (params : JS.value) : M unit :=
  key ← call (generateToolKey toolName params);
  update_recentFailures (delete key).

Definition markFailureAddressed (toolName : string) (params : JS.value)
  : M unit :=
  key ← call (generateToolKey toolName params);
  self ← get_this;
  match recentFailures self !! key with
  | Some failure =>
      update_recentFailures
        (insert key (FailureInfo.set_wasAddressed true failure))
  | None => mret tt
  end.

(** The condition under which a stored failure is related to a successful
    [read_file] of [filePath]. *)
Definition related (filePath : JS.value) (key : string) (failure : FailureInfo.t)
  : bool :=
  let errorInfo := FailureInfo.errorInfo failure in
  String.prefix "replace:" key
  && JS.strict_equals
       (JS.optional_get (ToolErrorInfo.context errorInfo) "filePath") filePath
  && (String.eqb (ToolErrorInfo.code errorInfo) "EDIT_TEXT_NOT_FOUND"
      || String.eqb (ToolErrorInfo.code errorInfo) "EDIT_MULTIPLE_MATCHES").

Definition markRelatedFailuresAddressed (diagnosticCall : ToolCall.t) : M unit :=
  if String.eqb (ToolCall.name diagnosticCall) "read_file" then
    let filePath := JS.optional_get (ToolCall.params diagnosticCall) "file_path" in
    if JS.ToBoolean filePath then
      es ← entries;
      for_of es (λ '(key, failure),
        if related filePath key failure
        then update_recentFailures (alter (FailureInfo.set_wasAddressed true) key)
        else mret tt)
    else mret tt
  else mret tt.

Definition diagnosticTools : list string :=
  ["read_file"; "list_directory"; "grep"; "glob"].

Definition detectDiagnosticActions (recentToolCalls : list ToolCall.t) : M unit :=
  for_of recentToolCalls (λ call,
    if bool_decide (ToolCall.name call ∈ diagnosticTools) && ToolCall.success call
    then markRelatedFailuresAddressed call
    else mret tt).

Module FailureStats.
Record t : Type := mk {
  totalFailures : nat;
  activeFailures : nat
}.
End FailureStats.

(** The callback of [filter] in [getFailureStats]; it reads the clock only
    for a failure that is not addressed. *)
Definition is_active (f : FailureInfo.t) : M bool :=
  if negb (FailureInfo.wasAddressed f) then
    now ← Date_now;
    self ← get_this;
    mret (bool_decide (now - FailureInfo.timestamp f < failureTimeoutMs self))
  else mret false.

(** [xs.filter(p).length]. *)
Fixpoint filter_length {A : Type} (p : A → M bool) (xs : list A) : M nat :=
  match xs with
  | [] => mret O
  | x :: rest =>
      keep ← p x;
      n ← filter_length p rest;
      mret (if keep : bool then S n else n)
  end.

Definition getFailureStats : M FailureStats.t :=
  cleanupOldFailures;;
  es ← entries;
  activeFailures ← filter_length is_active (es.*2);
  self ← get_this;
  mret (FailureStats.mk (size (recentFailures self)) activeFailures).

Definition clearAll : M unit :=
  update_recentFailures (λ _, ∅).

(** ** Closed forms of the two loops over the entries *)

(** The test of [cleanupOldFailures] on one record. *)
Definition expired (now maxAge : Z) (failure : FailureInfo.t) : bool :=
  bool_decide (now - FailureInfo.timestamp failure > maxAge).

(** The map after the cleanup pass that read [now] from the clock. *)
Definition purge (now maxAge : Z) (m : gmap string FailureInfo.t)
  : gmap string FailureInfo.t :=
  filter (λ kv, expired now maxAge kv.2 = false) m.

(** The world after the cleanup pass. *)
Definition cleaned (w : world) : world :=
  set_recentFailures
    (purge (clock w (reads w)) (maxFailureAge (this w)) (recentFailures (this w)))
    (tick w).

(** The result of an allowed and of a blocked validation. *)
Definition allow : ValidationResult.t :=
  ValidationResult.mk true None None None.

Definition blocked (timeSinceFailure : Z) (failure : FailureInfo.t)
  : ValidationResult.t :=
  ValidationResult.mk false
    (Some (blocked_reason timeSinceFailure))
    (Some (FailureInfo.requiredActions failure))
    (Some failure).

(** Whether a traced call makes [detectDiagnosticActions] mark the record
    [failure] stored under [key]. *)
Definition addresses (call : ToolCall.t) (key : string) (failure : FailureInfo.t)
  : bool :=
  bool_decide (ToolCall.name call ∈ diagnosticTools)
  && ToolCall.success call
  && String.eqb (ToolCall.name call) "read_file"
  && JS.ToBoolean (JS.optional_get (ToolCall.params call) "file_path")
  && related (JS.optional_get (ToolCall.params call) "file_path") key failure.

Definition mark (b : bool) (failure : FailureInfo.t) : FailureInfo.t :=
  if b then FailureInfo.set_wasAddressed true failure else failure.

(** The map after [detectDiagnosticActions] ran on a trace. *)
Definition reconcile (trace : list ToolCall.t) (m : gmap string FailureInfo.t)
  : gmap string FailureInfo.t :=
  map_imap (λ key failure,
    Some (mark (existsb (λ call, addresses call key failure) trace) failure)) m.

(** Whether a loop over the entries [l] that acts on the entries selected by
    [c] acts on the key [k]. *)
Definition hits {A : Type} (c : string → A → bool) (k : string)
    (l : list (string * A)) : bool :=
  existsb (λ kv, bool_decide (kv.1 = k) && c kv.1 kv.2) l.

(** ** Sample data *)

(** A string literal with an apostrophe for each double quote. *)
Fixpoint dq (s : string) : string :=
  match s with
  | EmptyString => EmptyString
  | String c rest =>
      String (if Ascii.eqb c "'" then JS.dquote else c) (dq rest)
  end.

(** A guard with the default windows, at a clock that reads [1000], [2000],
    ... milliseconds. *)
Definition fresh : world :=
  mkWorld (constructor None None) (λ n, 1000 * (1 + Z.of_nat n)) 0.

(** The same guard when every later reading of the clock is [t]. *)
Definition at_time (t : Z) (w : world) : world :=
  mkWorld (this w) (λ _, t) (reads w).

(** [{file: f}], [{file_path: f}] and an error on the file [f]. *)
Definition file (f : string) : JS.value := JS.Obj [("file", JS.Str f)].
Definition file_path (f : string) : JS.value := JS.Obj [("file_path", JS.Str f)].
Definition error_on (code f : string) : ToolErrorInfo.t :=
  ToolErrorInfo.mk code (JS.Obj [("filePath", JS.Str f)]) ["read file first"].

(** The world after [recordFailure("replace", {file: f}, error)] on the fresh
    guard. *)
Definition failed (code f : string) : world :=
  snd (recordFailure "replace" (file f) (error_on code f) fresh).

(** The world after failures of [replace] on [a.txt] and on [b.txt] were
    recorded on the fresh guard, both with the error code [code]. *)
Definition two_failures (code : string) : world :=
  snd ((recordFailure "replace" (file "a.txt") (error_on code "a.txt");;
        recordFailure "replace" (file "b.txt") (error_on code "b.txt")) fresh).

(** ** Sequences of calls *)

(** A call of a method by the owner of the guard, who goes on with the guard
    as the call left it, also when the call threw. *)
Inductive operation : Type :=
| Validate (toolName : string) (params : JS.value)
| Failure (toolName : string) (params : JS.value) (errorInfo : ToolErrorInfo.t)
| Success (toolName : string) (params : JS.value)
| Addressed (toolName : string) (params : JS.value)
| Diagnose (recentToolCalls : list ToolCall.t)
| Stats
| Clear.

Definition perform (w : world) (op : operation) : world :=
  match op with
  | Validate toolName params => snd (validateBeforeExecution toolName params w)
  | Failure toolName params errorInfo =>
      snd (recordFailure toolName params errorInfo w)
  | Success toolName params => snd (recordSuccess toolName params w)
  | Addressed toolName params => snd (markFailureAddressed toolName params w)
  | Diagnose recentToolCalls => snd (detectDiagnosticActions recentToolCalls w)
  | Stats => snd (getFailureStats w)
  | Clear => snd (clearAll w)
  end.

Definition perform_all (ops : list operation) (w : world) : world :=
  foldl perform w ops.

Definition is_Failure (op : operation) : bool :=
  match op with
  | Failure _ _ _ => true
  | _ => false
  end.

(** The records of [m'] are records of [m], under the same keys, that kept
    their timestamp, error information and required actions and were not
    turned from addressed to unaddressed. *)
Definition settled (m m' : gmap string FailureInfo.t) : Prop :=
  ∀ key failure', m' !! key = Some failure' →
    ∃ failure, m !! key = Some failure
      ∧ FailureInfo.timestamp failure' = FailureInfo.timestamp failure
      ∧ FailureInfo.errorInfo failure' = FailureInfo.errorInfo failure
      ∧ FailureInfo.requiredActions failure' = FailureInfo.requiredActions failure
      ∧ (FailureInfo.wasAddressed failure = true →
         FailureInfo.wasAddressed failure' = true).

(** Every record was stamped by a clock reading already taken and lists the
    required actions of its error. *)
Definition well_stamped (w : world) : Prop :=
  ∀ key failure, recentFailures (this w) !! key = Some failure →
    (∃ i, (i < reads w)%nat ∧ FailureInfo.timestamp failure = clock w i)
    ∧ FailureInfo.requiredActions failure
      = ToolErrorInfo.requiredActions (FailureInfo.errorInfo failure).

(** ** Reading a quoted string back *)

(** The inverse of [JS.quote_code_units], used to show that quoting loses
    nothing. *)
Definition hex_value (c : ascii) : option nat :=
  let n := nat_of_ascii c in
  if (48 <=? n)%nat && (n <=? 57)%nat then Some (n - 48)%nat
  else if (97 <=? n)%nat && (n <=? 102)%nat then Some (n - 87)%nat
  else None.

Definition escaped (c : ascii) : option ascii :=
  let n := nat_of_ascii c in
  if (n =? 98)%nat then Some (ascii_of_nat 8)
  else if (n =? 116)%nat then Some (ascii_of_nat 9)
  else if (n =? 110)%nat then Some (ascii_of_nat 10)
  else if (n =? 102)%nat then Some (ascii_of_nat 12)
  else if (n =? 114)%nat then Some (ascii_of_nat 13)
  else if (n =? 34)%nat then Some JS.dquote
  else if (n =? 92)%nat then Some JS.backslash
  else None.

Fixpoint unquote_code_units (s : string) : option string :=
  match s with
  | EmptyString => Some EmptyString
  | String c rest =>
      if Ascii.eqb c JS.backslash then
        match rest with
        | EmptyString => None
        | String e rest' =>
            match escaped e with
            | Some c' => String c' <$> unquote_code_units rest'
            | None =>
                match rest' with
                | String _ (String _ (String h1 (String h0 rest''))) =>
                    match hex_value h1, hex_value h0 with
                    | Some a, Some b =>
                        String (ascii_of_nat (16 * a + b))
                        <$> unquote_code_units rest''
                    | _, _ => None
                    end
                | _ => None
                end
            end
        end
      else String c <$> unquote_code_units rest
  end.

(** ** The build information and the version string *)

Module Text.

Definition newline : string := String (ascii_of_nat 10) EmptyString.

(** Whether a value of type [string | undefined] is truthy. *)
Definition truthy (s : option string) : bool :=
  match s with
  | Some s => negb (String.eqb s EmptyString)
  | None => false
  end.

(** [a || b] for [a] and [b] of type [string | undefined], and for [b] a
    string. *)
Definition or_else (a b : option string) : option string :=
  if truthy a then a else b.

Definition or_string (a : option string) (b : string) : string :=
  match a with
  | Some s => if String.eqb s EmptyString then b else s
  | None => b
  end.

(** The white space and line terminator code units below 256. *)
Definition is_white_space (c : ascii) : bool :=
  let n := nat_of_ascii c in
  ((9 <=? n)%nat && (n <=? 13)%nat) || (n =? 32)%nat || (n =? 160)%nat.

Fixpoint trimStart (s : string) : string :=
  match s with
  | EmptyString => EmptyString
  | String c rest => if is_white_space c then trimStart rest else s
  end.

Fixpoint trimEnd (s : string) : string :=
  match s with
  | EmptyString => EmptyString
  | String c rest =>
      match trimEnd rest with
      | EmptyString => if is_white_space c then EmptyString else String c EmptyString
      | rest' => String c rest'
      end
  end.

(** [s.trim()]. *)
Definition trim (s : string) : string := trimEnd (trimStart s).

(** Whether a string has no white space, as a commit hash or a branch name
    has none. *)
Fixpoint no_white_space (s : string) : bool :=
  match s with
  | EmptyString => true
  | String c rest => negb (is_white_space c) && no_white_space rest
  end.

End Text.

Module BuildInfo.
Record t : Type := mk {
  buildTime : string;
  gitCommit : string;
  gitBranch : string;
  nodeVersion : string;
  platform : string
}.
End BuildInfo.

(** The generated constant. *)
Definition BUILD_INFO : BuildInfo.t :=
  BuildInfo.mk "2025-07-13T12:22:47.199Z" "eca8c282" "main" "v22.16.0" "linux-x64".

(** [getBuildInfo()] of the build script.  Its inputs are what the
    environment gives: the time as an ISO string, what each of the two
    [git] commands prints (or the exception it throws), and the version,
    platform and architecture of the process. *)
Definition getBuildInfo (toISOString : string)
    (rev_parse_HEAD rev_parse_abbrev_ref_HEAD : outcome string)
    (process_version process_platform process_arch : string) : BuildInfo.t :=
  let buildTime := toISOString in
  let gitCommit :=
    match rev_parse_HEAD with
    | Return printed => Text.trim printed
    | Throw _ => "unknown"
    end in
  let gitBranch :=
    match rev_parse_abbrev_ref_HEAD with
    | Return printed => Text.trim printed
    | Throw _ => "unknown"
    end in
  BuildInfo.mk buildTime (String.substring 0 8 gitCommit) gitBranch
    process_version (process_platform +:+ "-" +:+ process_arch).

Module VersionInfo.
Record t : Type := mk {
  version : string;
  buildTime : option string;
  gitCommit : option string;
  gitBranch : option string;
  nodeVersion : option string;
  platform : option string
}.
End VersionInfo.

(** [getCliVersion()]: [CLI_VERSION] is the environment variable and
    [pkgJson_version] the value of [pkgJson?.version], each [None] when
    undefined. *)
Definition getCliVersion (CLI_VERSION pkgJson_version : option string) : string :=
  Text.or_string (Text.or_else CLI_VERSION pkgJson_version) "unknown".

(** [getVersionInfo()]: [buildInfo] is the imported [BUILD_INFO], [None]
    when the import failed. *)
Definition getVersionInfo (CLI_VERSION pkgJson_version : option string)
    (buildInfo : option BuildInfo.t) : VersionInfo.t :=
  let version := getCliVersion CLI_VERSION pkgJson_version in
  match buildInfo with
  | Some buildInfo =>
      VersionInfo.mk version
        (Some (BuildInfo.buildTime buildInfo))
        (Some (BuildInfo.gitCommit buildInfo))
        (Some (BuildInfo.gitBranch buildInfo))
        (Some (BuildInfo.nodeVersion buildInfo))
        (Some (BuildInfo.platform buildInfo))
  | None => VersionInfo.mk version None None None None None
  end.

(** [formatVersionInfo(info)]; [toLocaleString] renders
    [new Date(buildTime).toLocaleString()], which depends on the locale and
    the time zone of the process. *)
Definition formatVersionInfo (toLocaleString : string → string)
    (info : VersionInfo.t) : string :=
  let output := "Gemini CLI v" +:+ VersionInfo.version info in
  let output :=
    match VersionInfo.buildTime info with
    | Some buildTime =>
        if Text.truthy (Some buildTime)
        then output +:+ Text.newline +:+ "Built: " +:+ toLocaleString buildTime
        else output
    | None => output
    end in
  let output :=
    if Text.truthy (VersionInfo.gitCommit info)
    then output +:+ Text.newline +:+ "Git: "
         +:+ JS.template (VersionInfo.gitBranch info) +:+ "@"
         +:+ JS.template (VersionInfo.gitCommit info)
    else output in
  let output :=
    if Text.truthy (VersionInfo.platform info)
    then output +:+ Text.newline +:+ "Platform: "
         +:+ JS.template (VersionInfo.platform info)
    else output in
  let output :=
    if Text.truthy (VersionInfo.nodeVersion info)
    then output +:+ Text.newline +:+ "Node: "
         +:+ JS.template (VersionInfo.nodeVersion info)
    else output in
  output.

(** * Properties *)

(** ** Running the monad *)

Lemma set_recentFailures_id w : set_recentFailures (recentFailures (this w)) w = w.
Proof. by destruct w as [[] ? ?]. Qed.

Lemma this_tick w : this (tick w) = this w.
Proof. done. Qed.

Ltac run :=
  unfold mbind, M_bind, mret, M_ret, call, get_this, entries, Date_now,
         update_recentFailures; simpl.

(** A loop whose body only rewrites the map folds its step over the list. *)
Lemma for_of_fold {A : Type} (step : gmap string FailureInfo.t → A → gmap string FailureInfo.t)
    (body : A → M unit) (xs : list A) :
  (∀ x w, body x w = (Return tt, set_recentFailures (step (recentFailures (this w)) x) w)) →
  ∀ w, for_of xs body w
       = (Return tt, set_recentFailures (foldl step (recentFailures (this w)) xs) w).
Proof.
  intros Hbody. induction xs as [|x xs IH]; intros w; simpl.
  - run. by rewrite set_recentFailures_id.
  - run. rewrite Hbody, IH. simpl. done.
Qed.

Section fold_entries.
Context {A : Type} (h : option A → option A) (c : string → A → bool).
Hypothesis h_idem : ∀ o, h (h o) = h o.

Lemma foldl_partial_alter_lookup (l : list (string * A)) (m0 : gmap string A) k :
  foldl (λ m kv, if c kv.1 kv.2 then partial_alter h kv.1 m else m) m0 l !! k
  = (if hits c k l then h (m0 !! k) else m0 !! k).
Proof using h_idem.
  revert m0. induction l as [|[k' x] l IH]; intros m0; simpl; [done|].
  rewrite IH. destruct (c k' x) eqn:Hc; simpl.
  - destruct (decide (k' = k)) as [->|Hne].
    + rewrite bool_decide_eq_true_2 by done. simpl.
      rewrite lookup_partial_alter_eq. destruct (hits c k l); by rewrite ?h_idem.
    + rewrite bool_decide_eq_false_2 by done. simpl.
      by rewrite lookup_partial_alter_ne.
  - by rewrite andb_false_r.
Qed.

Lemma hits_map_to_list (m : gmap string A) k :
  hits c k (map_to_list m) = from_option (c k) false (m !! k).
Proof.
  unfold hits. destruct (existsb _ _) eqn:Hex.
  - apply existsb_exists in Hex as [[k' x] [Hin Hkx]]. simpl in Hkx.
    apply andb_true_iff in Hkx as [Hk Hc]. apply bool_decide_eq_true in Hk as ->.
    apply list_elem_of_In, elem_of_map_to_list in Hin. by rewrite Hin.
  - destruct (m !! k) as [x|] eqn:Hm; simpl; [|done].
    destruct (c k x) eqn:Hc; [|done].
    assert (existsb (λ kv, bool_decide (kv.1 = k) && c kv.1 kv.2) (map_to_list m) = true)
      as Hcontra; [|congruence].
    apply existsb_exists. exists (k, x). split.
    + by apply list_elem_of_In, elem_of_map_to_list.
    + simpl. by rewrite bool_decide_eq_true_2.
Qed.
End fold_entries.

(** ** The cleanup pass *)

Lemma cleanupOldFailures_run w :
  cleanupOldFailures w = (Return tt, cleaned w).
Proof.
  unfold cleanupOldFailures, cleaned. run.
  set (now := clock w (reads w)). set (maxAge := maxFailureAge (this w)).
  rewrite (for_of_fold
    (λ m kv, if expired now maxAge kv.2 then partial_alter (λ _, None) kv.1 m else m)).
  - simpl. f_equal. f_equal. apply map_eq. intros k.
    rewrite (foldl_partial_alter_lookup (λ _, None) (λ _ f, expired now maxAge f)) by done.
    rewrite hits_map_to_list. unfold purge.
    destruct (recentFailures (this w) !! k) as [f|] eqn:Hk; simpl.
    + destruct (expired now maxAge f) eqn:He; symmetry.
      * apply map_lookup_filter_None. right. intros f' Hf'. simpl. congruence.
      * apply map_lookup_filter_Some. done.
    + symmetry. apply map_lookup_filter_None. by left.
  - intros [key failure] w'. simpl. unfold expired.
    destruct (bool_decide _); run; [done|]. by rewrite set_recentFailures_id.
Qed.

Lemma purge_lookup_Some now maxAge m key failure :
  purge now maxAge m !! key = Some failure
  ↔ m !! key = Some failure ∧ now - FailureInfo.timestamp failure ≤ maxAge.
Proof.
  unfold purge, expired. rewrite map_lookup_filter_Some. simpl.
  rewrite bool_decide_eq_false. split; intros [? ?]; split; auto; lia.
Qed.

Lemma purge_lookup_old now maxAge m key failure :
  m !! key = Some failure → now - FailureInfo.timestamp failure > maxAge →
  purge now maxAge m !! key = None.
Proof.
  intros Hm Hold. destruct (purge now maxAge m !! key) as [f|] eqn:Hp; [|done].
  apply purge_lookup_Some in Hp as [Hm' Hle]. rewrite Hm in Hm'.
  injection Hm' as ->. lia.
Qed.

Lemma purge_lookup_None now maxAge m key :
  m !! key = None → purge now maxAge m !! key = None.
Proof. intros Hm. apply map_lookup_filter_None. by left. Qed.

(** ** The reconciliation pass *)

Lemma addresses_mark call key b failure :
  addresses call key (mark b failure) = addresses call key failure.
Proof. by destruct b. Qed.

Lemma mark_mark b b' failure : mark b (mark b' failure) = mark (b || b') failure.
Proof. by destruct b, b'. Qed.

Lemma markRelatedFailuresAddressed_run call w :
  markRelatedFailuresAddressed call w
  = (Return tt,
     set_recentFailures
       (map_imap (λ key failure,
          Some (mark (String.eqb (ToolCall.name call) "read_file"
                      && JS.ToBoolean (JS.optional_get (ToolCall.params call) "file_path")
                      && related (JS.optional_get (ToolCall.params call) "file_path")
                           key failure) failure))
          (recentFailures (this w))) w).
Proof.
  assert (∀ m : gmap string FailureInfo.t, map_imap (λ _ f, Some (mark false f)) m = m)
    as Hid.
  { intros m. apply map_eq. intros k. rewrite map_lookup_imap.
    by destruct (m !! k). }
  unfold markRelatedFailuresAddressed.
  destruct (String.eqb (ToolCall.name call) "read_file"); simpl;
    [|run; by rewrite Hid, set_recentFailures_id].
  set (filePath := JS.optional_get (ToolCall.params call) "file_path").
  destruct (JS.ToBoolean filePath); simpl;
    [|run; by rewrite Hid, set_recentFailures_id].
  run.
  rewrite (for_of_fold
    (λ m kv, if related filePath kv.1 kv.2
             then partial_alter (fmap (FailureInfo.set_wasAddressed true)) kv.1 m
             else m)).
  - f_equal. f_equal. apply map_eq. intros k.
    rewrite (foldl_partial_alter_lookup
               (fmap (FailureInfo.set_wasAddressed true)) (related filePath)).
    + rewrite hits_map_to_list, map_lookup_imap.
      destruct (recentFailures (this w) !! k) as [f|]; simpl; [|done].
      by destruct (related filePath k f).
    + by intros [f|].
  - intros [key failure] w'. simpl.
    destruct (related filePath key failure); run; [done|].
    by rewrite set_recentFailures_id.
Qed.

Lemma detectDiagnosticActions_run trace w :
  detectDiagnosticActions trace w
  = (Return tt, set_recentFailures (reconcile trace (recentFailures (this w))) w).
Proof.
  unfold detectDiagnosticActions.
  rewrite (for_of_fold
    (λ m call, map_imap (λ key failure,
       Some (mark (addresses call key failure) failure)) m)).
  - f_equal. f_equal. generalize (recentFailures (this w)). clear w.
    induction trace as [|call trace IH]; intros m; simpl.
    + apply map_eq. intros k. unfold reconcile. rewrite map_lookup_imap.
      by destruct (m !! k).
    + rewrite IH. apply map_eq. intros k. unfold reconcile.
      rewrite !map_lookup_imap. destruct (m !! k) as [f|]; simpl; [|done].
      f_equal. rewrite mark_mark. f_equal.
      rewrite orb_comm. f_equal. clear IH.
      induction trace as [|c' trace IH']; simpl; [done|].
      by rewrite addresses_mark, IH'.
  - intros call w'. unfold addresses.
    destruct (bool_decide _ && ToolCall.success call) eqn:Hd.
    + by rewrite markRelatedFailuresAddressed_run.
    + run. rewrite <- (set_recentFailures_id w') at 1. do 2 f_equal.
      symmetry. apply map_eq. intros k. rewrite map_lookup_imap.
      by destruct (recentFailures (this w') !! k).
Qed.

Lemma reconcile_lookup trace m key :
  reconcile trace m !! key
  = (λ failure, mark (existsb (λ call, addresses call key failure) trace) failure)
      <$> m !! key.
Proof. unfold reconcile. rewrite map_lookup_imap. by destruct (m !! key). Qed.

(** ** The validation engine *)

Lemma validateBeforeExecution_Throw toolName params e w :
  generateToolKey toolName params = Throw e →
  validateBeforeExecution toolName params w = (Throw e, cleaned w).
Proof.
  intros Hkey. unfold validateBeforeExecution.
  unfold mbind at 1. unfold M_bind. rewrite cleanupOldFailures_run.
  run. by rewrite Hkey.
Qed.

Lemma validateBeforeExecution_Return toolName params key w :
  generateToolKey toolName params = Return key →
  validateBeforeExecution toolName params w
  = match recentFailures (this (cleaned w)) !! key with
    | None => (Return allow, cleaned w)
    | Some failure =>
        let timeSinceFailure :=
          clock w (S (reads w)) - FailureInfo.timestamp failure in
        (Return (if bool_decide (timeSinceFailure < failureTimeoutMs (this w))
                    && negb (FailureInfo.wasAddressed failure)
                 then blocked timeSinceFailure failure
                 else allow),
         tick (cleaned w))
    end.
Proof.
  intros Hkey. unfold validateBeforeExecution.
  unfold mbind at 1. unfold M_bind. rewrite cleanupOldFailures_run.
  run. rewrite Hkey. simpl.
  destruct (purge _ _ _ !! key) as [failure|]; [|done].
  run. by destruct (bool_decide _ && negb _).
Qed.

Lemma recordFailure_Return toolName params key errorInfo w :
  generateToolKey toolName params = Return key →
  recordFailure toolName params errorInfo w
  = (Return tt,
     set_recentFailures
       (<[key := FailureInfo.mk (clock w (reads w)) errorInfo
                   (ToolErrorInfo.requiredActions errorInfo) false]>
          (recentFailures (this w)))
       (tick w)).
Proof. intros Hkey. unfold recordFailure. run. by rewrite Hkey. Qed.

Lemma recordSuccess_Return toolName params key w :
  generateToolKey toolName params = Return key →
  recordSuccess toolName params w
  = (Return tt, set_recentFailures (delete key (recentFailures (this w))) w).
Proof. intros Hkey. unfold recordSuccess. run. by rewrite Hkey. Qed.

Lemma markFailureAddressed_Return toolName params key w :
  generateToolKey toolName params = Return key →
  markFailureAddressed toolName params w
  = (Return tt,
     match recentFailures (this w) !! key with
     | Some failure =>
         set_recentFailures
           (<[key := FailureInfo.set_wasAddressed true failure]>
              (recentFailures (this w))) w
     | None => w
     end).
Proof.
  intros Hkey. unfold markFailureAddressed. run. rewrite Hkey. simpl.
  by destruct (recentFailures (this w) !! key).
Qed.

Lemma recordFailure_Throw toolName params e errorInfo w :
  generateToolKey toolName params = Throw e →
  recordFailure toolName params errorInfo w = (Throw e, w).
Proof. intros Hkey. unfold recordFailure. run. by rewrite Hkey. Qed.

Lemma recordSuccess_Throw toolName params e w :
  generateToolKey toolName params = Throw e →
  recordSuccess toolName params w = (Throw e, w).
Proof. intros Hkey. unfold recordSuccess. run. by rewrite Hkey. Qed.

Lemma markFailureAddressed_Throw toolName params e w :
  generateToolKey toolName params = Throw e →
  markFailureAddressed toolName params w = (Throw e, w).
Proof. intros Hkey. unfold markFailureAddressed. run. by rewrite Hkey. Qed.

(** [Math.round(t / 1000)] is the integer nearest to [t / 1000], a half
    rounding up. *)
Lemma Math_round_thousandth_nearest t :
  1000 * Math_round_thousandth t - 500 ≤ t
  < 1000 * Math_round_thousandth t + 500.
Proof.
  unfold Math_round_thousandth.
  pose proof (Z.div_mod (t + 500) 1000) as Hdiv.
  pose proof (Z.mod_pos_bound (t + 500) 1000) as Hmod. lia.
Qed.

Lemma Math_round_thousandth_halves :
  Math_round_thousandth 0 = 0 ∧ Math_round_thousandth 499 = 0
  ∧ Math_round_thousandth 500 = 1 ∧ Math_round_thousandth 1499 = 1
  ∧ Math_round_thousandth 1500 = 2 ∧ Math_round_thousandth 29999 = 30
  ∧ Math_round_thousandth (-500) = 0 ∧ Math_round_thousandth (-501) = -1.
Proof. repeat split; reflexivity. Qed.

(** The digits that [JS.Number_toString] prints read back as the number. *)
Lemma Number_toString_parse n :
  NilZero.int_of_string (JS.Number_toString n) = Some (Z.to_int n).
Proof.
  unfold JS.Number_toString. apply NilZero.isi.
  - destruct n as [|p|p]; cbn; [discriminate| |discriminate].
    intros [= Hnil]. by apply (Unsigned.to_uint_nonnil p).
  - destruct n as [|p|p]; cbn; [discriminate|discriminate|].
    intros [= Hnil]. by apply (Unsigned.to_uint_nonnil p).
Qed.

Lemma Number_toString_digits :
  JS.Number_toString 0 = "0" ∧ JS.Number_toString 2 = "2"
  ∧ JS.Number_toString 30 = "30" ∧ JS.Number_toString 1234567 = "1234567"
  ∧ JS.Number_toString (-1) = "-1".
Proof. repeat split; reflexivity. Qed.

(** X22.  When the fingerprint of a call is [key], [validateBeforeExecution]
    returns a result, and the map it leaves is the map after the cleanup
    pass.  The result has [allowed = false] exactly when that map has a
    record for [key] which is not addressed and whose elapsed time (the
    clock reading of the check minus its timestamp) is less than
    [failureTimeoutMs]; it then carries the [requiredActions] of the record,
    the record, and the reason [Previous identical tool call failed Ns ago
    and required actions have not been addressed.], where [N] is, in decimal
    digits, the whole number of seconds nearest to the elapsed time (a half
    rounding up), the elapsed time being a safe integer (at most [2 ^ 53]
    in absolute value).  In the other cases (no record, an addressed record,
    the cooldown elapsed) the result is [allowed = true]. *)
Theorem validateBeforeExecution_policy toolName params key w :
  generateToolKey toolName params = Return key →
  let out := validateBeforeExecution toolName params w in
  let stored := recentFailures (this (snd out)) in
  let elapsed failure := clock w (S (reads w)) - FailureInfo.timestamp failure in
  ∃ result,
    fst out = Return result
    ∧ stored = purge (clock w (reads w)) (maxFailureAge (this w))
                 (recentFailures (this w))
    ∧ (ValidationResult.allowed result = false
       ↔ ∃ failure, stored !! key = Some failure
           ∧ FailureInfo.wasAddressed failure = false
           ∧ elapsed failure < failureTimeoutMs (this w))
    ∧ (∀ failure, stored !! key = Some failure →
         ValidationResult.allowed result = false →
         (Z.abs (elapsed failure) ≤ 2 ^ 53 →
          ∃ seconds digits,
            ValidationResult.reason result
            = Some ("Previous identical tool call failed " +:+ digits
                    +:+ "s ago and required actions have not been addressed.")
            ∧ NilZero.int_of_string digits = Some (Z.to_int seconds)
            ∧ 1000 * seconds - 500 ≤ elapsed failure < 1000 * seconds + 500)
         ∧ ValidationResult.requiredActions result
           = Some (FailureInfo.requiredActions failure)
         ∧ ValidationResult.previousFailure result = Some failure)
    ∧ (ValidationResult.allowed result = true
       ↔ stored !! key = None
         ∨ ∃ failure, stored !! key = Some failure
             ∧ (FailureInfo.wasAddressed failure = true
                ∨ failureTimeoutMs (this w) ≤ elapsed failure)).
Proof.
  intros Hkey. cbv zeta.
  rewrite (validateBeforeExecution_Return _ _ _ _ Hkey).
  destruct (recentFailures (this (cleaned w)) !! key) as [failure|] eqn:Hk;
    cbv zeta; cbn [fst snd]; rewrite ?this_tick, Hk.
  - set (t := clock w (S (reads w)) - FailureInfo.timestamp failure).
    destruct (bool_decide (t < failureTimeoutMs (this w))) eqn:Ht;
      [apply bool_decide_eq_true in Ht | apply bool_decide_eq_false in Ht];
      destruct (FailureInfo.wasAddressed failure) eqn:Ha; cbn [andb negb];
      eexists; (split; [reflexivity|]); (split; [reflexivity|]).
    + (* within the cooldown, addressed *)
      split; [split; [done|]|split; [done|split; [|done]]].
      * intros (f & Hf & Hf' & _). injection Hf as <-. congruence.
      * intros _. right. exists failure. auto.
    + (* within the cooldown, not addressed: blocked *)
      split; [split; [|done]|split; [|split; [done|]]].
      * intros _. exists failure. auto.
      * intros f Hf _. injection Hf as <-. split; [|done]. intros _.
        exists (Math_round_thousandth t), (JS.Number_toString (Math_round_thousandth t)).
        split; [done|].
        split; [apply Number_toString_parse | apply Math_round_thousandth_nearest].
      * intros [?|(f & Hf & [Hf'|Hf'])]; [done| |]; injection Hf as <-;
          [congruence|subst t; lia].
    + (* cooldown elapsed, addressed *)
      split; [split; [done|]|split; [done|split; [|done]]].
      * intros (f & Hf & Hf' & _). injection Hf as <-. congruence.
      * intros _. right. exists failure. auto.
    + (* cooldown elapsed, not addressed *)
      split; [split; [done|]|split; [done|split; [|done]]].
      * intros (f & Hf & _ & Hf'). injection Hf as <-. subst t. lia.
      * intros _. right. exists failure. split; [done|]. right. subst t. lia.
  - exists allow. split; [done|]. split; [done|].
    split; [split; [done|]|split; [done|split; [|done]]].
    + by intros (f & ? & _).
    + intros _. by left.
Qed.

Lemma validateBeforeExecution_policy_witness :
  generateToolKey "replace" (file "x") = Return (dq "replace:{'file':'x'}")
  ∧ fst (validateBeforeExecution "replace" (file "x") (failed "not_found" "x"))
    = Return (ValidationResult.mk false
                (Some "Previous identical tool call failed 2s ago and required actions have not been addressed.")
                (Some ["read file first"])
                (Some (FailureInfo.mk 1000 (error_on "not_found" "x")
                         ["read file first"] false)))
  ∧ ∃ result,
      fst (validateBeforeExecution "replace" (file "x") (failed "not_found" "x"))
      = Return result
      ∧ ValidationResult.allowed result = false
      ∧ ValidationResult.requiredActions result = Some ["read file first"].
Proof.
  split; [reflexivity|]. split; [vm_compute; reflexivity|].
  destruct (validateBeforeExecution_policy "replace" (file "x")
              (dq "replace:{'file':'x'}") (failed "not_found" "x") eq_refl)
    as (result & Hr & _ & Hblocked & Hcarries & _).
  set (failure := FailureInfo.mk 1000 (error_on "not_found" "x")
                    ["read file first"] false).
  assert (recentFailures
            (this (snd (validateBeforeExecution "replace" (file "x")
                          (failed "not_found" "x"))))
          !! dq "replace:{'file':'x'}" = Some failure) as Hstored.
  { vm_compute. reflexivity. }
  assert (ValidationResult.allowed result = false) as Hb.
  { apply Hblocked. exists failure. split; [exact Hstored|].
    split; [reflexivity|]. vm_compute. reflexivity. }
  exists result. split; [exact Hr|]. split; [exact Hb|].
  exact (proj1 (proj2 (Hcarries failure Hstored Hb))).
Defined.

(** C5.  Let a record stored for the fingerprint [key] be unaddressed, with
    an age of at most [maxFailureAge] when the cleanup pass reads the clock
    and of at least [failureTimeoutMs] when the check reads it.  Then
    [validateBeforeExecution] returns [allowed = true] and the record is
    still stored, unchanged and unaddressed. *)
Theorem cooldown_expiry_keeps_record toolName params key failure w :
  generateToolKey toolName params = Return key →
  recentFailures (this w) !! key = Some failure →
  FailureInfo.wasAddressed failure = false →
  clock w (reads w) - FailureInfo.timestamp failure ≤ maxFailureAge (this w) →
  failureTimeoutMs (this w) ≤ clock w (S (reads w)) - FailureInfo.timestamp failure →
  let out := validateBeforeExecution toolName params w in
  fst out = Return (ValidationResult.mk true None None None)
  ∧ recentFailures (this (snd out)) !! key = Some failure
  ∧ FailureInfo.wasAddressed failure = false.
Proof.
  intros Hkey Hstored Hunaddressed Hage Hcool. cbv zeta.
  rewrite (validateBeforeExecution_Return _ _ _ _ Hkey).
  assert (recentFailures (this (cleaned w)) !! key = Some failure) as Hk.
  { by apply purge_lookup_Some. }
  rewrite Hk. cbv zeta. cbn [fst snd]. rewrite this_tick, Hunaddressed.
  rewrite bool_decide_eq_false_2 by lia. done.
Qed.

Lemma cooldown_expiry_keeps_record_witness :
  let w := at_time 31000 (failed "not_found" "x") in
  let failure :=
    FailureInfo.mk 1000 (error_on "not_found" "x") ["read file first"] false in
  generateToolKey "replace" (file "x") = Return (dq "replace:{'file':'x'}")
  ∧ recentFailures (this w) !! dq "replace:{'file':'x'}" = Some failure
  ∧ fst (validateBeforeExecution "replace" (file "x") w)
    = Return (ValidationResult.mk true None None None)
  ∧ recentFailures (this (snd (validateBeforeExecution "replace" (file "x") w)))
    !! dq "replace:{'file':'x'}" = Some failure.
Proof.
  cbv zeta.
  assert (recentFailures (this (at_time 31000 (failed "not_found" "x")))
          !! dq "replace:{'file':'x'}"
          = Some (FailureInfo.mk 1000 (error_on "not_found" "x")
                    ["read file first"] false)) as Hstored.
  { vm_compute. reflexivity. }
  split; [reflexivity|]. split; [exact Hstored|].
  destruct (cooldown_expiry_keeps_record "replace" (file "x")
              (dq "replace:{'file':'x'}") _
              (at_time 31000 (failed "not_found" "x")) eq_refl Hstored eq_refl)
    as (Hallowed & Hkept & _).
  - vm_compute. discriminate.
  - vm_compute. discriminate.
  - split; [exact Hallowed | exact Hkept].
Defined.

(** C6.  When the fingerprint of a call is [key], [recordSuccess] deletes
    the record stored for [key] and leaves the records of the other
    fingerprints as they are; the validation of the same call that follows
    returns [allowed = true], whatever the clock reads.  In particular this
    holds right after [recordFailure] recorded a failure of the call. *)
Theorem recordSuccess_clears toolName params key w :
  generateToolKey toolName params = Return key →
  let out := recordSuccess toolName params w in
  fst out = Return tt
  ∧ recentFailures (this (snd out)) !! key = None
  ∧ (∀ key', key' ≠ key →
       recentFailures (this (snd out)) !! key' = recentFailures (this w) !! key')
  ∧ fst (validateBeforeExecution toolName params (snd out))
    = Return (ValidationResult.mk true None None None)
  ∧ ∀ errorInfo w0,
      fst ((recordFailure toolName params errorInfo;;
            recordSuccess toolName params;;
            validateBeforeExecution toolName params) w0)
      = Return (ValidationResult.mk true None None None).
Proof.
  intros Hkey. cbv zeta.
  assert (∀ w', fst (validateBeforeExecution toolName params
                       (snd (recordSuccess toolName params w')))
                = Return (ValidationResult.mk true None None None)) as Hnext.
  { intros w'. rewrite (recordSuccess_Return _ _ _ _ Hkey). cbn [snd].
    rewrite (validateBeforeExecution_Return _ _ _ _ Hkey).
    unfold cleaned at 1. cbn [this set_recentFailures recentFailures].
    rewrite purge_lookup_None; [done|]. cbn. apply lookup_delete_eq. }
  split; [by rewrite (recordSuccess_Return _ _ _ _ Hkey)|].
  split; [rewrite (recordSuccess_Return _ _ _ _ Hkey); apply lookup_delete_eq|].
  split.
  { intros key' Hne. rewrite (recordSuccess_Return _ _ _ _ Hkey). cbn.
    by apply lookup_delete_ne. }
  split; [apply Hnext|].
  intros errorInfo w0. unfold mbind, M_bind.
  rewrite (recordFailure_Return _ _ _ _ _ Hkey).
  specialize (Hnext (set_recentFailures
    (<[key := FailureInfo.mk (clock w0 (reads w0)) errorInfo
                (ToolErrorInfo.requiredActions errorInfo) false]>
       (recentFailures (this w0))) (tick w0))).
  destruct (recordSuccess toolName params _) as [[[]|e] w2] eqn:Hs.
  - exact Hnext.
  - rewrite (recordSuccess_Return _ _ _ _ Hkey) in Hs. discriminate.
Qed.

Lemma recordSuccess_clears_witness :
  let w := failed "not_found" "x" in
  let out := recordSuccess "replace" (file "x") w in
  generateToolKey "replace" (file "x") = Return (dq "replace:{'file':'x'}")
  ∧ is_Some (recentFailures (this w) !! dq "replace:{'file':'x'}")
  ∧ recentFailures (this (snd out)) !! dq "replace:{'file':'x'}" = None
  ∧ fst (validateBeforeExecution "replace" (file "x") (snd out))
    = Return (ValidationResult.mk true None None None).
Proof.
  cbv zeta. split; [reflexivity|]. split; [vm_compute; eauto|].
  destruct (recordSuccess_clears "replace" (file "x") (dq "replace:{'file':'x'}")
              (failed "not_found" "x") eq_refl)
    as (_ & Hgone & _ & Hnext & _).
  split; [exact Hgone | exact Hnext].
Defined.

(** X23.  When the fingerprint of a call is [key], [markFailureAddressed]
    returns.  If a record is stored for [key], the map afterwards holds that
    record with [wasAddressed = true] under [key] and is otherwise the same,
    and the validation of the same call that follows returns
    [allowed = true] whatever the clock reads, so also within the cooldown
    window.  If no record is stored for [key], nothing changes. *)
Theorem markFailureAddressed_policy toolName params key w :
  generateToolKey toolName params = Return key →
  let out := markFailureAddressed toolName params w in
  fst out = Return tt
  ∧ (∀ failure, recentFailures (this w) !! key = Some failure →
       recentFailures (this (snd out))
       = <[key := FailureInfo.mk (FailureInfo.timestamp failure)
                    (FailureInfo.errorInfo failure)
                    (FailureInfo.requiredActions failure) true]>
           (recentFailures (this w))
       ∧ fst (validateBeforeExecution toolName params (snd out))
         = Return (ValidationResult.mk true None None None))
  ∧ (recentFailures (this w) !! key = None → snd out = w).
Proof.
  intros Hkey. cbv zeta. rewrite (markFailureAddressed_Return _ _ _ _ Hkey).
  cbn [fst snd]. split; [done|]. split.
  - intros failure Hstored. rewrite Hstored. split; [done|].
    rewrite (validateBeforeExecution_Return _ _ _ _ Hkey).
    destruct (recentFailures (this (cleaned _)) !! key) as [f|] eqn:Hk; [|done].
    apply purge_lookup_Some in Hk as [Hk _]. cbn in Hk.
    rewrite lookup_insert_eq in Hk. injection Hk as <-. cbn.
    by rewrite andb_false_r.
  - by intros ->.
Qed.

Lemma markFailureAddressed_policy_witness :
  let w := failed "not_found" "x" in
  let out := markFailureAddressed "replace" (file "x") w in
  generateToolKey "replace" (file "x") = Return (dq "replace:{'file':'x'}")
  ∧ fst (validateBeforeExecution "replace" (file "x") w)
    = Return (blocked 2000 (FailureInfo.mk 1000 (error_on "not_found" "x")
                              ["read file first"] false))
  ∧ fst out = Return tt
  ∧ fst (validateBeforeExecution "replace" (file "x") (snd out))
    = Return (ValidationResult.mk true None None None)
  ∧ snd (markFailureAddressed "replace" (file "y") w) = w.
Proof.
  cbv zeta. split; [reflexivity|]. split; [vm_compute; reflexivity|].
  destruct (markFailureAddressed_policy "replace" (file "x")
              (dq "replace:{'file':'x'}") (failed "not_found" "x") eq_refl)
    as (Hret & Hsome & _).
  destruct (markFailureAddressed_policy "replace" (file "y")
              (dq "replace:{'file':'y'}") (failed "not_found" "x") eq_refl)
    as (_ & _ & Hnone).
  split; [exact Hret|]. split.
  - eapply Hsome. vm_compute. reflexivity.
  - apply Hnone. vm_compute. reflexivity.
Defined.

(** ** The statistics query *)

Lemma is_active_run f w :
  ∃ b w', is_active f w = (Return b, w') ∧ this w' = this w ∧ clock w' = clock w.
Proof.
  unfold is_active. destruct (FailureInfo.wasAddressed f); run; eauto.
Qed.

Lemma filter_length_is_active failures w :
  ∃ n w', filter_length is_active failures w = (Return n, w')
          ∧ this w' = this w ∧ clock w' = clock w.
Proof.
  revert w. induction failures as [|f failures IH]; intros w; simpl.
  - by exists O, w.
  - unfold mbind, M_bind.
    destruct (is_active_run f w) as (b & w1 & -> & Hthis1 & Hclock1).
    destruct (IH w1) as (n & w' & -> & Hthis & Hclock).
    eexists _, w'. split; [reflexivity|]. split; congruence.
Qed.

Lemma getFailureStats_run w :
  ∃ activeFailures w',
    getFailureStats w
    = (Return (FailureStats.mk (size (recentFailures (this (cleaned w))))
                 activeFailures), w')
    ∧ this w' = this (cleaned w).
Proof.
  unfold getFailureStats. unfold mbind at 1. unfold M_bind.
  rewrite cleanupOldFailures_run. run.
  destruct (filter_length_is_active
              ((map_to_list (recentFailures (this (cleaned w)))).*2) (cleaned w))
    as (n & w' & Hn & Hthis & _).
  simpl in Hn. rewrite Hn. exists n, w'. by rewrite Hthis.
Qed.

(** C8.  A stored record whose age, at the clock reading of the cleanup
    pass, exceeds [maxFailureAge] is no longer stored after
    [validateBeforeExecution] (whether the call returns or throws) nor after
    [getFailureStats], whatever its [wasAddressed] flag.  The
    [totalFailures] that [getFailureStats] returns, at once or after such a
    validation, is the number of records left, so it does not count that
    record. *)
Theorem cleanup_purges_old_records key failure w :
  recentFailures (this w) !! key = Some failure →
  clock w (reads w) - FailureInfo.timestamp failure > maxFailureAge (this w) →
  let counted w0 stats :=
    fst (getFailureStats w0) = Return stats
    ∧ recentFailures (this (snd (getFailureStats w0))) !! key = None
    ∧ FailureStats.totalFailures stats
      = size (recentFailures (this (snd (getFailureStats w0)))) in
  (∀ toolName params,
     recentFailures (this (snd (validateBeforeExecution toolName params w))) !! key
     = None
     ∧ ∃ stats, counted (snd (validateBeforeExecution toolName params w)) stats)
  ∧ ∃ stats,
      counted w stats
      ∧ (FailureStats.totalFailures stats
         ≤ size (delete key (recentFailures (this w))))%nat.
Proof.
  intros Hstored Hold. cbv zeta.
  assert (recentFailures (this (cleaned w)) !! key = None) as Hgone.
  { by apply (purge_lookup_old _ _ _ _ failure). }
  assert (∀ w0, recentFailures (this w0) !! key = None →
            ∃ stats, fst (getFailureStats w0) = Return stats
              ∧ recentFailures (this (snd (getFailureStats w0))) !! key = None
              ∧ FailureStats.totalFailures stats
                = size (recentFailures (this (snd (getFailureStats w0)))))
    as Hcounted.
  { intros w0 Hnone. destruct (getFailureStats_run w0) as (n & w' & -> & Hthis).
    eexists. split; [reflexivity|]. cbn [fst snd FailureStats.totalFailures].
    rewrite Hthis. split; [|done]. by apply purge_lookup_None. }
  split.
  - intros toolName params.
    assert (recentFailures
              (this (snd (validateBeforeExecution toolName params w))) !! key
            = None) as Hnone.
    { destruct (generateToolKey toolName params) as [key'|e] eqn:Hkey.
      - rewrite (validateBeforeExecution_Return _ _ _ _ Hkey).
        by destruct (recentFailures (this (cleaned w)) !! key').
      - by rewrite (validateBeforeExecution_Throw _ _ _ _ Hkey). }
    split; [exact Hnone | by apply Hcounted].
  - destruct (getFailureStats_run w) as (n & w' & -> & Hthis).
    eexists. cbn [fst snd FailureStats.totalFailures]. rewrite Hthis.
    split; [done|].
    apply map_subseteq_size, map_subseteq_spec. intros k f Hk.
    apply purge_lookup_Some in Hk as [Hk Hage].
    rewrite lookup_delete_ne; [done|]. intros <-.
    rewrite Hstored in Hk. injection Hk as <-. lia.
Qed.

Lemma cleanup_purges_old_records_witness :
  let w := at_time 400000 (failed "not_found" "x") in
  let key := dq "replace:{'file':'x'}" in
  recentFailures (this w) !! key
  = Some (FailureInfo.mk 1000 (error_on "not_found" "x") ["read file first"] false)
  ∧ recentFailures (this (snd (validateBeforeExecution "replace" (file "y") w)))
    !! key = None
  ∧ fst (getFailureStats w) = Return (FailureStats.mk 0 0).
Proof.
  cbv zeta.
  assert (recentFailures (this (at_time 400000 (failed "not_found" "x")))
          !! dq "replace:{'file':'x'}"
          = Some (FailureInfo.mk 1000 (error_on "not_found" "x")
                    ["read file first"] false)) as Hstored.
  { vm_compute. reflexivity. }
  split; [exact Hstored|].
  destruct (cleanup_purges_old_records _ _ _ Hstored) as (Hvalidate & _).
  { vm_compute. reflexivity. }
  split; [apply Hvalidate|]. vm_compute. reflexivity.
Defined.

(** C9.  [detectDiagnosticActions] returns and leaves a map with the same
    keys: it creates no record and deletes none.  The record under a key
    keeps its timestamp, its error information and its required actions; its
    [wasAddressed] flag stays [true] if it was [true].  So a record is either
    unchanged or the same record with [wasAddressed] set from [false] to
    [true]. *)
Theorem detectDiagnosticActions_only_addresses trace w :
  let out := detectDiagnosticActions trace w in
  fst out = Return tt
  ∧ (∀ key, recentFailures (this (snd out)) !! key = None
            ↔ recentFailures (this w) !! key = None)
  ∧ ∀ key failure, recentFailures (this w) !! key = Some failure →
      ∃ failure', recentFailures (this (snd out)) !! key = Some failure'
        ∧ FailureInfo.timestamp failure' = FailureInfo.timestamp failure
        ∧ FailureInfo.errorInfo failure' = FailureInfo.errorInfo failure
        ∧ FailureInfo.requiredActions failure' = FailureInfo.requiredActions failure
        ∧ (FailureInfo.wasAddressed failure = true →
           FailureInfo.wasAddressed failure' = true)
        ∧ (failure' = failure
           ∨ FailureInfo.wasAddressed failure = false
             ∧ failure' = FailureInfo.set_wasAddressed true failure).
Proof.
  cbv zeta. rewrite detectDiagnosticActions_run. cbn [fst snd].
  split; [done|]. split.
  - intros key. cbn. rewrite reconcile_lookup.
    by destruct (recentFailures (this w) !! key).
  - intros key failure Hstored. cbn. rewrite reconcile_lookup, Hstored. cbn.
    eexists. split; [reflexivity|].
    destruct (existsb _ trace); cbn; [|by auto 10].
    destruct failure as [ts ei ra []]; cbn; auto 10.
Qed.

Lemma detectDiagnosticActions_only_addresses_witness :
  let w := two_failures "EDIT_TEXT_NOT_FOUND" in
  let trace := [ToolCall.mk "read_file" (file_path "a.txt") true;
                ToolCall.mk "grep" (file_path "b.txt") true] in
  let failure := FailureInfo.mk 1000 (error_on "EDIT_TEXT_NOT_FOUND" "a.txt")
                   ["read file first"] false in
  recentFailures (this w) !! dq "replace:{'file':'a.txt'}" = Some failure
  ∧ ∃ failure',
      recentFailures (this (snd (detectDiagnosticActions trace w)))
      !! dq "replace:{'file':'a.txt'}" = Some failure'
      ∧ FailureInfo.timestamp failure' = 1000
      ∧ FailureInfo.errorInfo failure' = error_on "EDIT_TEXT_NOT_FOUND" "a.txt".
Proof.
  cbv zeta.
  assert (recentFailures (this (two_failures "EDIT_TEXT_NOT_FOUND"))
          !! dq "replace:{'file':'a.txt'}"
          = Some (FailureInfo.mk 1000 (error_on "EDIT_TEXT_NOT_FOUND" "a.txt")
                    ["read file first"] false)) as Hstored.
  { vm_compute. reflexivity. }
  split; [exact Hstored|].
  destruct (detectDiagnosticActions_only_addresses
              [ToolCall.mk "read_file" (file_path "a.txt") true;
               ToolCall.mk "grep" (file_path "b.txt") true]
              (two_failures "EDIT_TEXT_NOT_FOUND")) as (_ & _ & Hkept).
  destruct (Hkept _ _ Hstored) as (failure' & Hafter & Htime & Herror & _).
  exists failure'. split; [exact Hafter|]. split; [exact Htime | exact Herror].
Defined.

(** ** Diagnostic reconciliation *)

(** C1 (counterexample).  Where [replace] failed on [a.txt] with the code
    [not_found] and the context [{filePath: "a.txt"}], a successful
    [read_file] of [a.txt] leaves the record of [a.txt] unaddressed: the
    pass looks for the codes [EDIT_TEXT_NOT_FOUND] and
    [EDIT_MULTIPLE_MATCHES] only. *)
Lemma not_found_stays_unaddressed :
  let w := two_failures "not_found" in
  let trace := [ToolCall.mk "read_file" (file_path "a.txt") true] in
  let out := detectDiagnosticActions trace w in
  generateToolKey "replace" (file "a.txt") = Return (dq "replace:{'file':'a.txt'}")
  ∧ recentFailures (this w) !! dq "replace:{'file':'a.txt'}"
    = Some (FailureInfo.mk 1000 (error_on "not_found" "a.txt")
              ["read file first"] false)
  ∧ fst out = Return tt
  ∧ FailureInfo.wasAddressed
    <$> recentFailures (this (snd out)) !! dq "replace:{'file':'a.txt'}"
    = Some false.
Proof. vm_compute. done. Qed.

(** C1 (amended).  Let a record be stored under a key that starts with
    [replace:], with the error code [EDIT_TEXT_NOT_FOUND] or
    [EDIT_MULTIPLE_MATCHES] and a context whose [filePath] is strictly equal
    to [resource], a truthy value.  If the trace has a successful call of
    [read_file] whose [file_path] is [resource], then
    [detectDiagnosticActions] returns and the record is stored with
    [wasAddressed = true].  A record whose context [filePath] is not
    strictly equal to the [file_path] of any successful [read_file] of the
    trace is left as it is. *)
Theorem read_file_addresses_replace_failures
    trace w key failure resource params :
  recentFailures (this w) !! key = Some failure →
  String.prefix "replace:" key = true →
  ToolErrorInfo.code (FailureInfo.errorInfo failure) = "EDIT_TEXT_NOT_FOUND"
  ∨ ToolErrorInfo.code (FailureInfo.errorInfo failure) = "EDIT_MULTIPLE_MATCHES" →
  JS.ToBoolean resource = true →
  JS.strict_equals
    (JS.optional_get (ToolErrorInfo.context (FailureInfo.errorInfo failure))
       "filePath") resource = true →
  ToolCall.mk "read_file" params true ∈ trace →
  JS.optional_get params "file_path" = resource →
  let out := detectDiagnosticActions trace w in
  fst out = Return tt
  ∧ recentFailures (this (snd out)) !! key
    = Some (FailureInfo.mk (FailureInfo.timestamp failure)
              (FailureInfo.errorInfo failure)
              (FailureInfo.requiredActions failure) true)
  ∧ ∀ key' other,
      recentFailures (this w) !! key' = Some other →
      (∀ call, call ∈ trace →
         ToolCall.name call = "read_file" → ToolCall.success call = true →
         JS.strict_equals
           (JS.optional_get (ToolErrorInfo.context (FailureInfo.errorInfo other))
              "filePath")
           (JS.optional_get (ToolCall.params call) "file_path") = false) →
      recentFailures (this (snd out)) !! key' = Some other.
Proof.
  intros Hstored Hprefix Hcode Htruthy Hsame Hcall Hparams. cbv zeta.
  rewrite detectDiagnosticActions_run. cbn [fst snd].
  split; [done|]. split.
  - cbn. rewrite reconcile_lookup, Hstored. cbn.
    replace (existsb _ trace) with true; [done|].
    symmetry. apply existsb_exists. eexists. split; [by apply list_elem_of_In|].
    unfold addresses, related. cbn. rewrite Hparams, Htruthy, Hprefix, Hsame. cbn.
    by destruct Hcode as [-> | ->].
  - intros key' other Hother Hunrelated. cbn.
    rewrite reconcile_lookup, Hother. cbn.
    replace (existsb _ trace) with false; [done|].
    symmetry. apply not_true_is_false. intros Hex.
    apply existsb_exists in Hex as (call & Hin & Haddr).
    apply list_elem_of_In in Hin. unfold addresses, related in Haddr.
    apply andb_true_iff in Haddr as [Haddr Hrelated].
    apply andb_true_iff in Haddr as [Haddr _].
    apply andb_true_iff in Haddr as [Haddr Hname].
    apply andb_true_iff in Haddr as [_ Hsuccess].
    apply String.eqb_eq in Hname.
    rewrite (Hunrelated call Hin Hname Hsuccess) in Hrelated.
    by rewrite andb_false_r in Hrelated.
Qed.

Lemma read_file_addresses_replace_failures_witness :
  let w := two_failures "EDIT_TEXT_NOT_FOUND" in
  let trace := [ToolCall.mk "read_file" (file_path "a.txt") true] in
  let out := detectDiagnosticActions trace w in
  let a := FailureInfo.mk 1000 (error_on "EDIT_TEXT_NOT_FOUND" "a.txt")
             ["read file first"] in
  let b := FailureInfo.mk 2000 (error_on "EDIT_TEXT_NOT_FOUND" "b.txt")
             ["read file first"] in
  recentFailures (this w) !! dq "replace:{'file':'a.txt'}" = Some (a false)
  ∧ recentFailures (this w) !! dq "replace:{'file':'b.txt'}" = Some (b false)
  ∧ recentFailures (this (snd out)) !! dq "replace:{'file':'a.txt'}" = Some (a true)
  ∧ recentFailures (this (snd out)) !! dq "replace:{'file':'b.txt'}" = Some (b false).
Proof.
  cbv zeta.
  assert (recentFailures (this (two_failures "EDIT_TEXT_NOT_FOUND"))
          !! dq "replace:{'file':'a.txt'}"
          = Some (FailureInfo.mk 1000 (error_on "EDIT_TEXT_NOT_FOUND" "a.txt")
                    ["read file first"] false)) as Ha.
  { vm_compute. reflexivity. }
  assert (recentFailures (this (two_failures "EDIT_TEXT_NOT_FOUND"))
          !! dq "replace:{'file':'b.txt'}"
          = Some (FailureInfo.mk 2000 (error_on "EDIT_TEXT_NOT_FOUND" "b.txt")
                    ["read file first"] false)) as Hb.
  { vm_compute. reflexivity. }
  split; [exact Ha|]. split; [exact Hb|].
  destruct (read_file_addresses_replace_failures
              [ToolCall.mk "read_file" (file_path "a.txt") true]
              (two_failures "EDIT_TEXT_NOT_FOUND") (dq "replace:{'file':'a.txt'}")
              _ (JS.Str "a.txt") (file_path "a.txt")
              Ha eq_refl (or_introl eq_refl) eq_refl eq_refl)
    as (_ & Haddressed & Hothers).
  - apply list_elem_of_In. left. reflexivity.
  - reflexivity.
  - split; [exact Haddressed|].
    apply (Hothers _ _ Hb). intros call Hin _ _.
    apply list_elem_of_In in Hin. destruct Hin as [<- | []]. reflexivity.
Defined.

(** ** Absent parameters *)

(** C3.  On absent parameters ([undefined] or [null]) [Object.keys] throws
    a [TypeError], so [generateToolKey] throws and so does every operation
    of the guard that computes a fingerprint. *)
Theorem absent_parameters_throw toolName errorInfo w :
  let e := TypeError "Cannot convert undefined or null to object" in
  (generateToolKey toolName JS.Undefined = Throw e
   ∧ fst (validateBeforeExecution toolName JS.Undefined w) = Throw e
   ∧ fst (recordFailure toolName JS.Undefined errorInfo w) = Throw e
   ∧ fst (recordSuccess toolName JS.Undefined w) = Throw e
   ∧ fst (markFailureAddressed toolName JS.Undefined w) = Throw e)
  ∧ (generateToolKey toolName JS.Null = Throw e
     ∧ fst (validateBeforeExecution toolName JS.Null w) = Throw e
     ∧ fst (recordFailure toolName JS.Null errorInfo w) = Throw e
     ∧ fst (recordSuccess toolName JS.Null w) = Throw e
     ∧ fst (markFailureAddressed toolName JS.Null w) = Throw e).
Proof.
  cbv zeta. split.
  - split; [done|]. split; [|done].
    by rewrite (validateBeforeExecution_Throw toolName JS.Undefined
                  (TypeError "Cannot convert undefined or null to object") w).
  - split; [done|]. split; [|done].
    by rewrite (validateBeforeExecution_Throw toolName JS.Null
                  (TypeError "Cannot convert undefined or null to object") w).
Qed.

(** C4.  On absent parameters ([undefined] or [null])
    [validateBeforeExecution] returns no result, so not [allowed = true]
    either, although no record is stored for the call: it runs the cleanup
    pass and then throws the [TypeError] of [Object.keys], on the guard
    fresh from the constructor as on any other. *)
Theorem validateBeforeExecution_absent_parameters toolName w :
  let e := TypeError "Cannot convert undefined or null to object" in
  let kept := purge (clock w (reads w)) (maxFailureAge (this w))
                (recentFailures (this w)) in
  (fst (validateBeforeExecution toolName JS.Undefined w) = Throw e
   ∧ recentFailures (this (snd (validateBeforeExecution toolName JS.Undefined w)))
     = kept)
  ∧ (fst (validateBeforeExecution toolName JS.Null w) = Throw e
     ∧ recentFailures (this (snd (validateBeforeExecution toolName JS.Null w)))
       = kept)
  ∧ recentFailures (this fresh) = ∅
  ∧ fst (validateBeforeExecution toolName JS.Undefined fresh) = Throw e
  ∧ ∀ params result,
      params = JS.Undefined ∨ params = JS.Null →
      fst (validateBeforeExecution toolName params w) ≠ Return result.
Proof.
  cbv zeta.
  assert (∀ params w0, params = JS.Undefined ∨ params = JS.Null →
            validateBeforeExecution toolName params w0
            = (Throw (TypeError "Cannot convert undefined or null to object"),
               cleaned w0)) as Hthrow.
  { intros params w0 [-> | ->]; by apply validateBeforeExecution_Throw. }
  split; [by rewrite (Hthrow JS.Undefined w); [|left]|].
  split; [by rewrite (Hthrow JS.Null w); [|right]|].
  split; [done|].
  split; [by rewrite (Hthrow JS.Undefined fresh); [|left]|].
  intros params result Habsent. by rewrite (Hthrow params w Habsent).
Qed.

Lemma validateBeforeExecution_absent_parameters_witness :
  fst (validateBeforeExecution "replace" JS.Undefined fresh)
  ≠ Return (ValidationResult.mk true None None None)
  ∧ fst (validateBeforeExecution "replace" JS.Null (failed "not_found" "x"))
    ≠ Return (ValidationResult.mk true None None None).
Proof.
  split.
  - apply (proj2 (proj2 (proj2 (proj2
             (validateBeforeExecution_absent_parameters "replace" fresh))))).
    by left.
  - apply (proj2 (proj2 (proj2 (proj2
             (validateBeforeExecution_absent_parameters "replace"
                (failed "not_found" "x")))))).
    by right.
Defined.

(** C7.  On absent parameters ([undefined] or [null])
    [markFailureAddressed] is not a no-op that returns: with no record
    stored at all, as with any map, it throws the [TypeError] of
    [Object.keys]; the world is left as it was. *)
Theorem markFailureAddressed_absent_parameters toolName w :
  let e := TypeError "Cannot convert undefined or null to object" in
  markFailureAddressed toolName JS.Undefined w = (Throw e, w)
  ∧ markFailureAddressed toolName JS.Null w = (Throw e, w)
  ∧ recentFailures (this fresh) = ∅
  ∧ fst (markFailureAddressed toolName JS.Undefined fresh) = Throw e
  ∧ fst (markFailureAddressed toolName JS.Null fresh) = Throw e.
Proof.
  cbv zeta.
  split; [by apply markFailureAddressed_Throw|].
  split; [by apply markFailureAddressed_Throw|].
  split; [done|].
  split; by rewrite (markFailureAddressed_Throw _ _
                       (TypeError "Cannot convert undefined or null to object")).
Qed.

(** On parameters that are present the fingerprint is returned: the tool
    name, a colon and the serialized parameters. *)
Lemma generateToolKey_present toolName params :
  params ≠ JS.Undefined → params ≠ JS.Null →
  ∃ keys paramsString,
    JS.Object_keys params = Return keys
    ∧ JS.JSON_stringify params (JS.Array_sort keys) = Some paramsString
    ∧ generateToolKey toolName params
      = Return (toolName +:+ ":" +:+ paramsString).
Proof.
  intros Hundefined Hnull. unfold generateToolKey, JS.JSON_stringify.
  destruct params as [| |[]| | | |]; try done; cbn; eauto.
Qed.

Lemma String_length_app s1 s2 :
  String.length (s1 +:+ s2) = (String.length s1 + String.length s2)%nat.
Proof. induction s1 as [|c s1 IH]; simpl; [done|by rewrite IH]. Qed.

Lemma String_app_inj_r s t1 t2 : t1 +:+ s = t2 +:+ s → t1 = t2.
Proof.
  revert t2. induction t1 as [|c t1 IH]; intros [|c' t2] Heq; simpl in Heq.
  - done.
  - apply (f_equal String.length) in Heq.
    rewrite ?String_length_app in Heq. simpl in Heq.
    rewrite ?String_length_app in Heq. lia.
  - apply (f_equal String.length) in Heq.
    rewrite ?String_length_app in Heq. simpl in Heq.
    rewrite ?String_length_app in Heq. lia.
  - injection Heq as -> Heq. f_equal. by apply IH.
Qed.

(** The fingerprint is scoped by the tool name: two tool names never share
    the fingerprint of the same parameters. *)
Lemma generateToolKey_scoped toolName1 toolName2 params key1 key2 :
  toolName1 ≠ toolName2 →
  generateToolKey toolName1 params = Return key1 →
  generateToolKey toolName2 params = Return key2 →
  key1 ≠ key2.
Proof.
  intros Hne. unfold generateToolKey.
  destruct (JS.Object_keys params) as [keys|e]; cbn; [|done].
  intros [= <-] [= <-] Heq. by apply String_app_inj_r in Heq.
Qed.

(** ** The fingerprint and the order of properties *)

Lemma own_list_to_map {A} (props : list (string * A)) P :
  JS.own props P = (list_to_map props : gmap string A) !! P.
Proof.
  induction props as [|[k x] props IH]; simpl; [done|].
  destruct (String.eqb_spec k P) as [->|Hne].
  - by rewrite lookup_insert_eq.
  - by rewrite lookup_insert_ne.
Qed.

Lemma own_Permutation {A} (props props' : list (string * A)) P :
  NoDup props.*1 → props ≡ₚ props' → JS.own props P = JS.own props' P.
Proof.
  intros Hnodup Hperm. rewrite !own_list_to_map.
  by rewrite (list_to_map_proper props props' Hnodup Hperm).
Qed.

Lemma omap_pointwise_elem_of {A B} (f g : A → option B) (l : list A) :
  (∀ x, x ∈ l → f x = g x) → omap f l = omap g l.
Proof.
  induction l as [|x l IH]; intros Hfg; simpl; [done|].
  rewrite (Hfg x) by apply list_elem_of_here.
  assert (omap f l = omap g l) as Htail.
  { apply IH. intros y Hy. apply Hfg. by apply list_elem_of_further. }
  destruct (g x); [f_equal|]; exact Htail.
Qed.

Lemma Serialize_Arr K elems :
  JS.SerializeJSONProperty K (JS.Arr elems)
  = Some ("[" +:+
          String.concat ","
            (map (λ e, default "null" (JS.SerializeJSONProperty K e)) elems)
          +:+ "]").
Proof. done. Qed.

Lemma Serialize_Obj K props :
  JS.SerializeJSONProperty K (JS.Obj props)
  = Some ("{" +:+
          String.concat ","
            (omap (JS.member
                     (map (λ kv, (kv.1, JS.SerializeJSONProperty K kv.2)) props)) K)
          +:+ "}").
Proof. done. Qed.

Lemma reordered_serialize v v' :
  reordered v v' → ∀ K, JS.SerializeJSONProperty K v = JS.SerializeJSONProperty K v'.
Proof.
  revert v v'. fix IH 3.
  intros v v' [| |b|n|s|elems elems' Helems|props props' props'' Hnodup Hprops Hperm] K;
    try reflexivity.
  - rewrite !Serialize_Arr.
    assert (map (λ e, default "null" (JS.SerializeJSONProperty K e)) elems
            = map (λ e, default "null" (JS.SerializeJSONProperty K e)) elems') as ->;
      [|done].
    induction Helems as [|e e' elems elems' He _ IHelems]; simpl; [done|].
    by rewrite (IH _ _ He K), IHelems.
  - rewrite !Serialize_Obj.
    assert (map (λ kv, (kv.1, JS.SerializeJSONProperty K kv.2)) props
            = map (λ kv, (kv.1, JS.SerializeJSONProperty K kv.2)) props') as Hser.
    { clear Hnodup Hperm.
      induction Hprops as [|[k x] [k' x'] props props' [Hk Hx] _ IHprops]; simpl; [done|].
      simpl in Hk, Hx. by rewrite Hk, (IH _ _ Hx K), IHprops. }
    assert (props.*1 = props'.*1) as Hkeys.
    { clear Hnodup Hperm Hser.
      induction Hprops as [|[k x] [k' x'] props props' [Hk _] _ IHprops]; simpl; [done|].
      simpl in Hk. cbn. by f_equal. }
    assert (∀ P, JS.member (map (λ kv, (kv.1, JS.SerializeJSONProperty K kv.2)) props) P
               = JS.member (map (λ kv, (kv.1, JS.SerializeJSONProperty K kv.2)) props'') P)
      as Hmember.
    { intros P. unfold JS.member, JS.Get_serialized. rewrite Hser.
      rewrite (own_Permutation _ (map (λ kv, (kv.1, JS.SerializeJSONProperty K kv.2)) props'') P);
        [done| |by apply Permutation_map].
      rewrite <- list_fmap_compose. simpl.
      replace ((fst ∘ (λ kv : string * JS.value, (kv.1, JS.SerializeJSONProperty K kv.2))) <$> props')
        with (props'.*1) by done.
      by rewrite <- Hkeys. }
    by rewrite (omap_pointwise_elem_of _ _ K (λ P _, Hmember P)).
Qed.

Lemma Array_sort_Permutation (keys keys' : list string) :
  keys ≡ₚ keys' → JS.Array_sort keys = JS.Array_sort keys'.
Proof.
  intros Hperm. unfold JS.Array_sort.
  apply (Sorted_unique String.le); try apply Sorted_merge_sort; try apply _.
  by rewrite !merge_sort_Permutation.
Qed.

Lemma reordered_generateToolKey toolName params params' :
  reordered params params' →
  generateToolKey toolName params = generateToolKey toolName params'.
Proof.
  intros Hreordered. unfold generateToolKey, JS.JSON_stringify.
  pose proof (reordered_serialize _ _ Hreordered) as Hser.
  destruct Hreordered
    as [| |b|n|s|elems elems' Helems|props props' props'' Hnodup Hprops Hperm];
    try reflexivity.
  - cbn [JS.Object_keys mbind outcome_bind].
    by rewrite (Forall2_length _ _ _ Helems), Hser.
  - cbn [JS.Object_keys mbind outcome_bind].
    assert (props.*1 = props'.*1) as Hkeys.
    { clear Hnodup Hperm Hser.
      induction Hprops as [|[k x] [k' x'] props props' [Hk _] _ IHprops]; [done|].
      simpl in Hk. cbn. by f_equal. }
    rewrite (Array_sort_Permutation props.*1 props''.*1), Hser; [done|].
    rewrite Hkeys. by apply fmap_Permutation.
Qed.

(** C2.  Two parameter structures that have the same key/value pairs at
    every depth and list the properties of their objects in different
    orders have the same fingerprint under every tool name; so do
    [{a:1,b:2}] and [{b:2,a:1}] under [replace], while [{a:1}] has different
    fingerprints under [replace] and under [write]. *)
Theorem generateToolKey_property_order toolName params params' :
  reordered params params' →
  generateToolKey toolName params = generateToolKey toolName params'
  ∧ generateToolKey "replace" (JS.Obj [("a", JS.Num 1); ("b", JS.Num 2)])
    = generateToolKey "replace" (JS.Obj [("b", JS.Num 2); ("a", JS.Num 1)])
  ∧ generateToolKey "replace" (JS.Obj [("a", JS.Num 1)])
    ≠ generateToolKey "write" (JS.Obj [("a", JS.Num 1)]).
Proof.
  intros Hreordered. split; [by apply reordered_generateToolKey|].
  split; [vm_compute; reflexivity|]. vm_compute. discriminate.
Qed.

Lemma generateToolKey_property_order_witness :
  let inner := [("a", JS.Num 2); ("b", JS.Num 3)] in
  let inner' := [("b", JS.Num 3); ("a", JS.Num 2)] in
  let params := JS.Obj [("a", JS.Num 1); ("b", JS.Obj inner)] in
  let params' := JS.Obj [("b", JS.Obj inner'); ("a", JS.Num 1)] in
  reordered params params'
  ∧ generateToolKey "replace" params = generateToolKey "replace" params'.
Proof.
  cbv zeta.
  assert (reordered (JS.Obj [("a", JS.Num 2); ("b", JS.Num 3)])
                    (JS.Obj [("b", JS.Num 3); ("a", JS.Num 2)])) as Hinner.
  { apply (reordered_Obj _ [("a", JS.Num 2); ("b", JS.Num 3)]).
    - compute_done.
    - repeat constructor.
    - apply perm_swap. }
  assert (reordered
            (JS.Obj [("a", JS.Num 1);
                     ("b", JS.Obj [("a", JS.Num 2); ("b", JS.Num 3)])])
            (JS.Obj [("b", JS.Obj [("b", JS.Num 3); ("a", JS.Num 2)]);
                     ("a", JS.Num 1)])) as Houter.
  { apply (reordered_Obj _
             [("a", JS.Num 1); ("b", JS.Obj [("b", JS.Num 3); ("a", JS.Num 2)])]).
    - compute_done.
    - repeat constructor. exact Hinner.
    - apply perm_swap. }
  split; [exact Houter|].
  exact (proj1 (generateToolKey_property_order "replace" _ _ Houter)).
Defined.

(** ** Properties that the replacer array drops *)

Lemma own_not_elem_of {A} (props : list (string * A)) P :
  P ∉ props.*1 → JS.own props P = None.
Proof.
  induction props as [|[k x] props IH]; intros Hnotin; simpl; [done|].
  rewrite fmap_cons in Hnotin. apply not_elem_of_cons in Hnotin as [Hne Hnotin].
  simpl in Hne. destruct (String.eqb_spec k P) as [->|_]; [done|]. by apply IH.
Qed.

Lemma elem_of_PropertyList P replacer :
  P ∈ JS.PropertyList replacer → P ∈ replacer.
Proof.
  induction replacer as [|Q replacer IH]; simpl; [done|].
  intros [->|Hin]%elem_of_cons; [by left|].
  right. apply IH. by apply list_elem_of_filter in Hin as [_ Hin].
Qed.

(** An object none of whose property names is in the property list
    serializes like the empty object. *)
Lemma Serialize_Obj_foreign K props :
  (∀ P, P ∈ K → P ∉ props.*1) →
  JS.SerializeJSONProperty K (JS.Obj props) = JS.SerializeJSONProperty K (JS.Obj []).
Proof.
  intros Hforeign. rewrite !Serialize_Obj. do 3 f_equal. f_equal.
  apply omap_pointwise_elem_of. intros P HP.
  unfold JS.member, JS.Get_serialized. rewrite own_not_elem_of; [done|].
  rewrite <- list_fmap_compose. by apply Hforeign.
Qed.

Lemma generateToolKey_nested toolName name nested nested' rest :
  (∀ P, P ∈ (name :: rest.*1) → (P ∉ nested.*1) ∧ (P ∉ nested'.*1)) →
  generateToolKey toolName (JS.Obj ((name, JS.Obj nested) :: rest))
  = generateToolKey toolName (JS.Obj ((name, JS.Obj nested') :: rest)).
Proof.
  intros Hforeign. unfold generateToolKey, JS.JSON_stringify.
  cbn [JS.Object_keys mbind outcome_bind].
  rewrite !fmap_cons. cbn [fst].
  set (K := JS.PropertyList (JS.Array_sort (name :: (rest.*1)))).
  assert (∀ P, P ∈ K → P ∈ name :: (rest.*1)) as HK.
  { intros P HP. apply elem_of_PropertyList in HP. unfold JS.Array_sort in HP.
    by rewrite merge_sort_Permutation in HP. }
  rewrite !Serialize_Obj. cbn [map fst snd].
  rewrite (Serialize_Obj_foreign K nested), (Serialize_Obj_foreign K nested');
    [done| |]; intros P HP; by apply Hforeign, HK.
Qed.

(** C10.  Let two parameter structures have the same top-level properties
    but for one, [name], whose value is the object [nested] in the first and
    [nested'] in the second, no property name of [nested] and [nested']
    being a top-level name.  They have the same fingerprint: the replacer
    array holds the top-level names only, and the serialization drops every
    other property at every depth.  So [{a:{x:1}}] and [{a:{y:2}}], which
    differ, share a fingerprint; and after a failure of the first call was
    recorded, the validation of the second call is blocked while the record
    is within the cooldown (and the retention) window. *)
Theorem nested_properties_collide
    toolName name nested nested' rest errorInfo w :
  (∀ P, P ∈ (name :: rest.*1) → (P ∉ nested.*1) ∧ (P ∉ nested'.*1)) →
  clock w (S (reads w)) - clock w (reads w) ≤ maxFailureAge (this w) →
  clock w (S (S (reads w))) - clock w (reads w) < failureTimeoutMs (this w) →
  let params := JS.Obj ((name, JS.Obj nested) :: rest) in
  let params' := JS.Obj ((name, JS.Obj nested') :: rest) in
  generateToolKey toolName params = generateToolKey toolName params'
  ∧ (generateToolKey "t" (JS.Obj [("a", JS.Obj [("x", JS.Num 1)])])
     = generateToolKey "t" (JS.Obj [("a", JS.Obj [("y", JS.Num 2)])])
     ∧ JS.Obj [("a", JS.Obj [("x", JS.Num 1)])]
       ≠ JS.Obj [("a", JS.Obj [("y", JS.Num 2)])])
  ∧ ∃ result,
      fst ((recordFailure toolName params errorInfo;;
            validateBeforeExecution toolName params') w) = Return result
      ∧ ValidationResult.allowed result = false
      ∧ ValidationResult.previousFailure result
        = Some (FailureInfo.mk (clock w (reads w)) errorInfo
                  (ToolErrorInfo.requiredActions errorInfo) false).
Proof.
  intros Hforeign Hretained Hcooldown. cbv zeta.
  pose proof (generateToolKey_nested toolName name nested nested' rest Hforeign)
    as Hsame.
  split; [exact Hsame|].
  split; [split; [vm_compute; reflexivity|discriminate]|].
  destruct (generateToolKey_present toolName
              (JS.Obj ((name, JS.Obj nested) :: rest)))
    as (keys & paramsString & _ & _ & Hkey); [done|done|].
  assert (generateToolKey toolName (JS.Obj ((name, JS.Obj nested') :: rest))
          = Return (toolName +:+ ":" +:+ paramsString)) as Hkey'.
  { by rewrite <- Hsame. }
  unfold mbind, M_bind.
  rewrite (recordFailure_Return _ _ _ _ _ Hkey).
  rewrite (validateBeforeExecution_Return _ _ _ _ Hkey').
  set (failure := FailureInfo.mk (clock w (reads w)) errorInfo
                    (ToolErrorInfo.requiredActions errorInfo) false).
  match goal with
  | |- context [recentFailures (this (cleaned ?w1)) !! ?k] =>
      assert (recentFailures (this (cleaned w1)) !! k = Some failure) as ->
  end.
  { apply purge_lookup_Some. cbn. rewrite lookup_insert_eq. split; [done|].
    cbn. lia. }
  cbv zeta. cbn [fst snd]. eexists. split; [reflexivity|].
  cbn [FailureInfo.timestamp FailureInfo.wasAddressed failure negb].
  rewrite bool_decide_eq_true_2; [done|]. cbn. lia.
Qed.

Lemma nested_properties_collide_witness :
  let params := JS.Obj [("a", JS.Obj [("x", JS.Num 1)])] in
  let params' := JS.Obj [("a", JS.Obj [("y", JS.Num 2)])] in
  generateToolKey "t" params = Return (dq "t:{'a':{}}")
  ∧ generateToolKey "t" params' = Return (dq "t:{'a':{}}")
  ∧ ∃ result,
      fst ((recordFailure "t" params (error_on "not_found" "x");;
            validateBeforeExecution "t" params') fresh) = Return result
      ∧ ValidationResult.allowed result = false.
Proof.
  cbv zeta. split; [reflexivity|]. split; [reflexivity|].
  destruct (nested_properties_collide "t" "a" [("x", JS.Num 1)] [("y", JS.Num 2)]
              [] (error_on "not_found" "x") fresh)
    as (_ & _ & result & Hresult & Hblocked & _).
  - intros P [->|[]%elem_of_nil]%elem_of_cons. split; compute_done.
  - vm_compute. discriminate.
  - vm_compute. reflexivity.
  - exists result. split; [exact Hresult | exact Hblocked].
Defined.

(** * Further properties of the guard *)

(** ** Recording a failure *)

(** X1.  When the fingerprint of a call is [key], [recordFailure] returns
    and stores under [key] a new record: its timestamp is the clock reading
    of the call, its error information and required actions are those
    given, and it is unaddressed, whatever was stored under [key] before
    (also an addressed record).  The records of the other fingerprints are
    as they were, and the map has one record for [key]. *)
Theorem recordFailure_stores toolName params key errorInfo w :
  generateToolKey toolName params = Return key →
  let out := recordFailure toolName params errorInfo w in
  fst out = Return tt
  ∧ recentFailures (this (snd out)) !! key
    = Some (FailureInfo.mk (clock w (reads w)) errorInfo
              (ToolErrorInfo.requiredActions errorInfo) false)
  ∧ (∀ key', key' ≠ key →
       recentFailures (this (snd out)) !! key' = recentFailures (this w) !! key')
  ∧ size (recentFailures (this (snd out)))
    = S (size (delete key (recentFailures (this w)))).
Proof.
  intros Hkey. cbv zeta. rewrite (recordFailure_Return _ _ _ _ _ Hkey).
  cbn [fst snd]. split; [done|]. cbn.
  split; [apply lookup_insert_eq|]. split.
  - intros key' Hne. by apply lookup_insert_ne.
  - rewrite <- insert_delete_eq. apply map_size_insert_None, lookup_delete_eq.
Qed.

Lemma recordFailure_stores_witness :
  let w := snd (markFailureAddressed "replace" (file "x") (failed "not_found" "x")) in
  let out := recordFailure "replace" (file "x") (error_on "conflict" "x") w in
  generateToolKey "replace" (file "x") = Return (dq "replace:{'file':'x'}")
  ∧ FailureInfo.wasAddressed
    <$> recentFailures (this w) !! dq "replace:{'file':'x'}" = Some true
  ∧ recentFailures (this (snd out)) !! dq "replace:{'file':'x'}"
    = Some (FailureInfo.mk 2000 (error_on "conflict" "x") ["read file first"] false)
  ∧ size (recentFailures (this (snd out))) = 1%nat.
Proof.
  cbv zeta. split; [reflexivity|]. split; [vm_compute; reflexivity|].
  destruct (recordFailure_stores "replace" (file "x") (dq "replace:{'file':'x'}")
              (error_on "conflict" "x")
              (snd (markFailureAddressed "replace" (file "x")
                      (failed "not_found" "x"))) eq_refl)
    as (_ & Hstored & _ & Hsize).
  split; [exact Hstored|]. rewrite Hsize. vm_compute. reflexivity.
Defined.

(** X2.  A failure that was just recorded blocks the validation of the same
    call: when the record is within the retention window at the clock
    reading of the cleanup pass and within the cooldown window at the
    reading of the check, [recordFailure] followed by
    [validateBeforeExecution] returns [allowed = false] with the required
    actions of the error and the new record, whatever the map held before
    (an addressed record of the same call included). *)
Theorem recordFailure_then_blocked toolName params key errorInfo w :
  generateToolKey toolName params = Return key →
  clock w (S (reads w)) - clock w (reads w) ≤ maxFailureAge (this w) →
  clock w (S (S (reads w))) - clock w (reads w) < failureTimeoutMs (this w) →
  fst ((recordFailure toolName params errorInfo;;
        validateBeforeExecution toolName params) w)
  = Return (ValidationResult.mk false
              (Some (blocked_reason
                       (clock w (S (S (reads w))) - clock w (reads w))))
              (Some (ToolErrorInfo.requiredActions errorInfo))
              (Some (FailureInfo.mk (clock w (reads w)) errorInfo
                       (ToolErrorInfo.requiredActions errorInfo) false))).
Proof.
  intros Hkey Hretained Hcooldown. unfold mbind, M_bind.
  rewrite (recordFailure_Return _ _ _ _ _ Hkey).
  rewrite (validateBeforeExecution_Return _ _ _ _ Hkey).
  set (failure := FailureInfo.mk (clock w (reads w)) errorInfo
                    (ToolErrorInfo.requiredActions errorInfo) false).
  match goal with
  | |- context [recentFailures (this (cleaned ?w1)) !! ?k] =>
      assert (recentFailures (this (cleaned w1)) !! k = Some failure) as ->
  end.
  { apply purge_lookup_Some. cbn. rewrite lookup_insert_eq. split; [done|].
    cbn. lia. }
  cbv zeta. cbn [fst snd].
  cbn [FailureInfo.timestamp FailureInfo.wasAddressed failure negb].
  rewrite bool_decide_eq_true_2; [done|]. cbn. lia.
Qed.

Lemma recordFailure_then_blocked_witness :
  let w := snd (markFailureAddressed "replace" (file "x") (failed "not_found" "x")) in
  generateToolKey "replace" (file "x") = Return (dq "replace:{'file':'x'}")
  ∧ fst (validateBeforeExecution "replace" (file "x") w)
    = Return (ValidationResult.mk true None None None)
  ∧ fst ((recordFailure "replace" (file "x") (error_on "conflict" "x");;
          validateBeforeExecution "replace" (file "x")) w)
    = Return (blocked 2000 (FailureInfo.mk 2000 (error_on "conflict" "x")
                              ["read file first"] false)).
Proof.
  cbv zeta. split; [reflexivity|]. split; [vm_compute; reflexivity|].
  apply (recordFailure_then_blocked "replace" (file "x")
           (dq "replace:{'file':'x'}") (error_on "conflict" "x")
           (snd (markFailureAddressed "replace" (file "x")
                   (failed "not_found" "x"))) eq_refl).
  - vm_compute. discriminate.
  - vm_compute. reflexivity.
Defined.

(** ** The cleanup pass, the reset and a success without a record *)

Lemma map_eq_Some {A} (m1 m2 : gmap string A) :
  (∀ k x, m1 !! k = Some x ↔ m2 !! k = Some x) → m1 = m2.
Proof.
  intros Hiff. apply map_eq. intros k.
  destruct (m1 !! k) as [x|] eqn:H1.
  - symmetry. by apply Hiff.
  - destruct (m2 !! k) as [y|] eqn:H2; [|done].
    apply Hiff in H2. congruence.
Qed.

Lemma purge_purge now now' maxAge m :
  purge now' maxAge (purge now maxAge m) = purge (Z.max now now') maxAge m.
Proof.
  apply map_eq_Some. intros k f. rewrite !purge_lookup_Some.
  split; [intros [[? ?] ?] | intros [? ?]]; repeat split; auto; lia.
Qed.

(** X3.  The cleanup pass returns and keeps exactly the records whose age,
    at its clock reading, is at most [maxFailureAge]: such a record is left
    as it is under its key, and nothing else is stored afterwards.  The two
    windows are not touched. *)
Theorem cleanupOldFailures_keeps w :
  let out := cleanupOldFailures w in
  fst out = Return tt
  ∧ (∀ key failure,
       recentFailures (this (snd out)) !! key = Some failure
       ↔ recentFailures (this w) !! key = Some failure
         ∧ clock w (reads w) - FailureInfo.timestamp failure
           ≤ maxFailureAge (this w))
  ∧ failureTimeoutMs (this (snd out)) = failureTimeoutMs (this w)
  ∧ maxFailureAge (this (snd out)) = maxFailureAge (this w).
Proof.
  cbv zeta. rewrite cleanupOldFailures_run. cbn [fst snd].
  split; [done|]. split; [|done].
  intros key failure. apply purge_lookup_Some.
Qed.

(** X4.  Two cleanup passes in a row leave what one pass at the later of
    their two clock readings leaves. *)
Theorem cleanupOldFailures_twice w :
  let out := (cleanupOldFailures;; cleanupOldFailures) w in
  fst out = Return tt
  ∧ recentFailures (this (snd out))
    = purge (Z.max (clock w (reads w)) (clock w (S (reads w))))
        (maxFailureAge (this w)) (recentFailures (this w)).
Proof.
  cbv zeta. unfold mbind, M_bind. rewrite !cleanupOldFailures_run.
  cbn [fst snd]. split; [done|]. cbn. apply purge_purge.
Qed.

(** X5.  [clearAll] returns and leaves an empty map.  After it the
    validation of any call that has a fingerprint returns [allowed = true],
    and the statistics count no failure. *)
Theorem clearAll_empties toolName params key w :
  generateToolKey toolName params = Return key →
  let out := clearAll w in
  fst out = Return tt
  ∧ recentFailures (this (snd out)) = ∅
  ∧ fst (validateBeforeExecution toolName params (snd out))
    = Return (ValidationResult.mk true None None None)
  ∧ fst (getFailureStats (snd out)) = Return (FailureStats.mk 0 0).
Proof.
  intros Hkey. cbv zeta. unfold clearAll, update_recentFailures. cbn [fst snd].
  split; [done|]. split; [done|]. split.
  - rewrite (validateBeforeExecution_Return _ _ _ _ Hkey).
    match goal with
    | |- context [recentFailures (this (cleaned ?w1)) !! ?k] =>
        assert (recentFailures (this (cleaned w1)) !! k = None) as ->; [|done]
    end.
    apply purge_lookup_None, lookup_empty.
  - unfold getFailureStats. unfold mbind at 1. unfold M_bind.
    rewrite cleanupOldFailures_run. unfold cleaned.
    cbn [this set_recentFailures recentFailures maxFailureAge clock reads].
    unfold purge. rewrite map_filter_empty. run.
    by rewrite map_to_list_empty.
Qed.

Lemma clearAll_empties_witness :
  let w := two_failures "not_found" in
  generateToolKey "replace" (file "a.txt") = Return (dq "replace:{'file':'a.txt'}")
  ∧ fst (getFailureStats w) = Return (FailureStats.mk 2 2)
  ∧ fst (validateBeforeExecution "replace" (file "a.txt") (snd (clearAll w)))
    = Return (ValidationResult.mk true None None None)
  ∧ fst (getFailureStats (snd (clearAll w))) = Return (FailureStats.mk 0 0).
Proof.
  cbv zeta. split; [reflexivity|]. split; [vm_compute; reflexivity|].
  destruct (clearAll_empties "replace" (file "a.txt")
              (dq "replace:{'file':'a.txt'}") (two_failures "not_found") eq_refl)
    as (_ & _ & Hallowed & Hstats).
  split; [exact Hallowed | exact Hstats].
Defined.

(** X6.  When the fingerprint of a call is [key] and no record is stored
    for it, [recordSuccess] returns and changes nothing; so a second
    [recordSuccess] after a first one changes nothing. *)
Theorem recordSuccess_without_record toolName params key w :
  generateToolKey toolName params = Return key →
  (recentFailures (this w) !! key = None →
   recordSuccess toolName params w = (Return tt, w))
  ∧ (recordSuccess toolName params;; recordSuccess toolName params) w
    = recordSuccess toolName params w.
Proof.
  intros Hkey. split.
  - intros Hnone. rewrite (recordSuccess_Return _ _ _ _ Hkey).
    by rewrite delete_id, set_recentFailures_id.
  - unfold mbind, M_bind. rewrite !(recordSuccess_Return _ _ _ _ Hkey).
    cbn. by rewrite delete_delete_eq.
Qed.

Lemma recordSuccess_without_record_witness :
  let w := failed "not_found" "x" in
  generateToolKey "replace" (file "y") = Return (dq "replace:{'file':'y'}")
  ∧ recentFailures (this w) !! dq "replace:{'file':'y'}" = None
  ∧ recordSuccess "replace" (file "y") w = (Return tt, w).
Proof.
  cbv zeta. split; [reflexivity|].
  assert (recentFailures (this (failed "not_found" "x"))
          !! dq "replace:{'file':'y'}" = None) as Hnone.
  { vm_compute. reflexivity. }
  split; [exact Hnone|].
  exact (proj1 (recordSuccess_without_record "replace" (file "y")
                  (dq "replace:{'file':'y'}") (failed "not_found" "x") eq_refl)
           Hnone).
Defined.

(** ** The statistics *)

Lemma filter_length_is_active_le failures w :
  ∃ n w', filter_length is_active failures w = (Return n, w')
          ∧ (n ≤ length failures)%nat ∧ this w' = this w.
Proof.
  revert w. induction failures as [|f failures IH]; intros w; simpl.
  - exists O, w. by split; [|split; [lia|]].
  - unfold mbind, M_bind.
    destruct (is_active_run f w) as (b & w1 & -> & Hthis1 & _).
    destruct (IH w1) as (n & w' & -> & Hle & Hthis).
    eexists _, w'. split; [reflexivity|]. split; [destruct b; lia|congruence].
Qed.

Lemma is_active_eq f w :
  is_active f w
  = if FailureInfo.wasAddressed f then (Return false, w)
    else (Return (bool_decide (clock w (reads w) - FailureInfo.timestamp f
                               < failureTimeoutMs (this w))), tick w).
Proof. unfold is_active. by destruct (FailureInfo.wasAddressed f). Qed.

Lemma filter_length_is_active_steady t failures w :
  (∀ i, (reads w ≤ i)%nat → clock w i = t) →
  ∃ w', filter_length is_active failures w
        = (Return (length (filter (λ f, FailureInfo.wasAddressed f = false
                                        ∧ t - FailureInfo.timestamp f
                                          < failureTimeoutMs (this w))
                             failures)), w')
        ∧ this w' = this w.
Proof.
  revert w. induction failures as [|f failures IH]; intros w Hsteady; simpl.
  - by exists w.
  - unfold mbind, M_bind. rewrite is_active_eq.
    destruct (FailureInfo.wasAddressed f) eqn:Haddressed.
    + destruct (IH w Hsteady) as (w' & -> & Hthis).
      exists w'. split; [|done]. rewrite filter_cons_False; [done|].
      intros [? _]. congruence.
    + destruct (IH (tick w)) as (w' & Hrun & Hthis).
      { intros i Hi. cbn in *. apply Hsteady. lia. }
      rewrite Hrun. exists w'. split; [|done].
      rewrite (Hsteady (reads w)) by lia. rewrite this_tick.
      destruct (decide (t - FailureInfo.timestamp f < failureTimeoutMs (this w)))
        as [Hlt|Hge].
      * rewrite bool_decide_eq_true_2 by done. by rewrite filter_cons_True.
      * rewrite bool_decide_eq_false_2 by done. rewrite filter_cons_False; [done|].
        by intros [_ ?].
Qed.

Lemma map_to_list_filter_length {A} (P : A → Prop) `{!∀ x, Decision (P x)}
    (m : gmap string A) :
  length (filter P (map_to_list m).*2) = size (filter (λ kv, P kv.2) m).
Proof.
  rewrite <- length_map_to_list.
  assert (map_to_list (filter (λ kv, P kv.2) m)
          ≡ₚ filter (λ kv, P kv.2) (map_to_list m)) as ->.
  { apply NoDup_Permutation.
    - apply NoDup_map_to_list.
    - apply NoDup_filter, NoDup_map_to_list.
    - intros [k x]. rewrite elem_of_map_to_list, map_lookup_filter_Some.
      rewrite list_elem_of_filter, elem_of_map_to_list. tauto. }
  induction (map_to_list m) as [|[k x] l IH]; [done|].
  rewrite fmap_cons. cbn [snd].
  destruct (decide (P x)) as [HP|HP].
  - rewrite !filter_cons_True by done. cbn. by rewrite IH.
  - by rewrite !filter_cons_False.
Qed.

Lemma getFailureStats_eq w n w' :
  filter_length is_active
    ((map_to_list (recentFailures (this (cleaned w)))).*2) (cleaned w)
  = (Return n, w') →
  getFailureStats w
  = (Return (FailureStats.mk (size (recentFailures (this w'))) n), w').
Proof.
  intros Hn. unfold getFailureStats. unfold mbind at 1. unfold M_bind.
  rewrite cleanupOldFailures_run. unfold entries, get_this.
  unfold mbind, M_bind, mret, M_ret. by rewrite Hn.
Qed.

(** X7.  [getFailureStats] returns, whatever the clock reads.  The map it
    leaves is the map after the cleanup pass, [totalFailures] is the number
    of its records, and [activeFailures] is at most [totalFailures], which
    is at most the number of records stored before. *)
Theorem getFailureStats_bounds w :
  ∃ stats,
    fst (getFailureStats w) = Return stats
    ∧ recentFailures (this (snd (getFailureStats w)))
      = purge (clock w (reads w)) (maxFailureAge (this w))
          (recentFailures (this w))
    ∧ FailureStats.totalFailures stats
      = size (recentFailures (this (snd (getFailureStats w))))
    ∧ (FailureStats.activeFailures stats ≤ FailureStats.totalFailures stats)%nat
    ∧ (FailureStats.totalFailures stats ≤ size (recentFailures (this w)))%nat.
Proof.
  destruct (filter_length_is_active_le
              ((map_to_list (recentFailures (this (cleaned w)))).*2) (cleaned w))
    as (n & w' & Hn & Hle & Hthis).
  rewrite (getFailureStats_eq _ _ _ Hn). eexists. split; [reflexivity|].
  cbn [snd FailureStats.totalFailures FailureStats.activeFailures].
  rewrite Hthis. split; [done|]. split; [done|]. split.
  - by rewrite length_fmap, length_map_to_list in Hle.
  - apply map_subseteq_size. unfold cleaned, purge. cbn.
    apply map_filter_subseteq.
Qed.

(** X8.  When every clock reading of the call is [t], the statistics are
    exact: [totalFailures] is the number of records whose age at [t] is at
    most [maxFailureAge], and [activeFailures] is the number of those that
    are unaddressed and whose age at [t] is less than [failureTimeoutMs],
    the records for which a validation at [t] is blocked. *)
Theorem getFailureStats_at_steady_clock t w :
  (∀ i, (reads w ≤ i)%nat → clock w i = t) →
  let kept := purge t (maxFailureAge (this w)) (recentFailures (this w)) in
  fst (getFailureStats w)
  = Return (FailureStats.mk (size kept)
              (size (filter (λ kv, FailureInfo.wasAddressed kv.2 = false
                                   ∧ t - FailureInfo.timestamp kv.2
                                     < failureTimeoutMs (this w)) kept))).
Proof.
  intros Hsteady. cbv zeta.
  destruct (filter_length_is_active_steady t
              ((map_to_list (recentFailures (this (cleaned w)))).*2) (cleaned w))
    as (w' & Hn & Hthis).
  { intros i Hi. cbn in *. apply Hsteady. lia. }
  rewrite (getFailureStats_eq _ _ _ Hn). cbn [fst]. rewrite Hthis.
  rewrite (map_to_list_filter_length
             (λ f, FailureInfo.wasAddressed f = false
                   ∧ t - FailureInfo.timestamp f
                     < failureTimeoutMs (this (cleaned w)))).
  unfold cleaned. cbn. by rewrite (Hsteady (reads w)) by lia.
Qed.

Lemma getFailureStats_at_steady_clock_witness :
  let w := at_time 31500 (snd (markFailureAddressed "replace" (file "a.txt")
                                 (two_failures "not_found"))) in
  (∀ i, (reads w ≤ i)%nat → clock w i = 31500)
  ∧ fst (getFailureStats w) = Return (FailureStats.mk 2 1)
  ∧ fst (getFailureStats (at_time 32000 w)) = Return (FailureStats.mk 2 0).
Proof.
  cbv zeta. split; [done|]. split; [|vm_compute; reflexivity].
  rewrite (getFailureStats_at_steady_clock 31500); [|done].
  vm_compute. reflexivity.
Defined.

(** ** Composing reconciliation passes *)

Lemma existsb_addresses_mark trace key b failure :
  existsb (λ call, addresses call key (mark b failure)) trace
  = existsb (λ call, addresses call key failure) trace.
Proof.
  induction trace as [|call trace IH]; simpl; [done|].
  by rewrite addresses_mark, IH.
Qed.

Lemma reconcile_app trace trace' m :
  reconcile (trace ++ trace') m = reconcile trace' (reconcile trace m).
Proof.
  apply map_eq. intros key. rewrite !reconcile_lookup.
  destruct (m !! key) as [failure|]; cbn; [|done].
  by rewrite existsb_addresses_mark, mark_mark, existsb_app, orb_comm.
Qed.

Lemma existsb_Permutation {A} (p : A → bool) (l l' : list A) :
  l ≡ₚ l' → existsb p l = existsb p l'.
Proof.
  induction 1 as [|x l l' _ IH|x y l|l l' l'' _ IH _ IH']; simpl.
  - done.
  - by rewrite IH.
  - by destruct (p x), (p y).
  - by rewrite IH.
Qed.

(** X9.  A reconciliation pass over two traces put end to end does what the
    pass over the first followed by the pass over the second does; and
    running a pass a second time over the same trace changes nothing
    more. *)
Theorem detectDiagnosticActions_app trace trace' w :
  detectDiagnosticActions (trace ++ trace') w
  = (detectDiagnosticActions trace;; detectDiagnosticActions trace') w
  ∧ (detectDiagnosticActions trace;; detectDiagnosticActions trace) w
    = detectDiagnosticActions trace w.
Proof.
  assert (reconcile trace (reconcile trace (recentFailures (this w)))
          = reconcile trace (recentFailures (this w))) as Hidem.
  { rewrite <- reconcile_app. apply map_eq. intros key.
    rewrite !reconcile_lookup.
    destruct (recentFailures (this w) !! key); cbn; [|done].
    rewrite existsb_app. by destruct (existsb _ trace). }
  unfold mbind, M_bind. rewrite (detectDiagnosticActions_run trace w).
  cbv beta iota. rewrite !detectDiagnosticActions_run. cbn. split.
  - by rewrite reconcile_app.
  - by rewrite Hidem.
Qed.

(** X10.  The order of the calls in the trace does not matter to the
    reconciliation pass. *)
Theorem detectDiagnosticActions_Permutation trace trace' w :
  trace ≡ₚ trace' →
  detectDiagnosticActions trace w = detectDiagnosticActions trace' w.
Proof.
  intros Hperm. rewrite !detectDiagnosticActions_run. do 2 f_equal.
  apply map_eq. intros key. rewrite !reconcile_lookup.
  destruct (recentFailures (this w) !! key) as [failure|]; cbn; [|done].
  by rewrite (existsb_Permutation _ _ _ Hperm).
Qed.

Lemma detectDiagnosticActions_Permutation_witness :
  let read := ToolCall.mk "read_file" (file_path "a.txt") true in
  let list := ToolCall.mk "list_directory" (file_path "b.txt") true in
  let w := two_failures "EDIT_MULTIPLE_MATCHES" in
  [read; list] ≡ₚ [list; read]
  ∧ detectDiagnosticActions [read; list] w = detectDiagnosticActions [list; read] w.
Proof.
  cbv zeta. split; [apply perm_swap|].
  apply detectDiagnosticActions_Permutation, perm_swap.
Defined.

(** X11.  A trace in which every call failed, or is not a [read_file], or
    has no truthy [file_path], leaves the world as it is; so does the empty
    trace. *)
Theorem detectDiagnosticActions_irrelevant trace w :
  (∀ call, call ∈ trace →
     ToolCall.success call = false
     ∨ ToolCall.name call ≠ "read_file"
     ∨ JS.ToBoolean (JS.optional_get (ToolCall.params call) "file_path") = false) →
  detectDiagnosticActions trace w = (Return tt, w)
  ∧ detectDiagnosticActions [] w = (Return tt, w).
Proof.
  intros Hirrelevant.
  assert (∀ m : gmap string FailureInfo.t, reconcile [] m = m) as Hnil.
  { intros m. apply map_eq. intros key. rewrite reconcile_lookup.
    by destruct (m !! key). }
  assert (reconcile trace (recentFailures (this w)) = recentFailures (this w))
    as Hsame.
  { apply map_eq. intros key. rewrite reconcile_lookup.
    destruct (recentFailures (this w) !! key) as [failure|]; cbn; [|done].
    replace (existsb _ trace) with false; [done|].
    symmetry. apply not_true_is_false. intros Hex.
    apply existsb_exists in Hex as (call & Hin & Haddr).
    apply list_elem_of_In in Hin. unfold addresses in Haddr.
    apply andb_true_iff in Haddr as [Haddr _].
    apply andb_true_iff in Haddr as [Haddr Htruthy].
    apply andb_true_iff in Haddr as [Haddr Hname].
    apply andb_true_iff in Haddr as [_ Hsuccess].
    apply String.eqb_eq in Hname.
    destruct (Hirrelevant call Hin) as [?|[?|?]]; congruence. }
  by rewrite !detectDiagnosticActions_run, Hnil, Hsame, set_recentFailures_id.
Qed.

Lemma detectDiagnosticActions_irrelevant_witness :
  let trace := [ToolCall.mk "read_file" (file_path "a.txt") false;
                ToolCall.mk "grep" (file_path "a.txt") true;
                ToolCall.mk "read_file" (file "a.txt") true;
                ToolCall.mk "read_file" JS.Undefined true] in
  let w := two_failures "EDIT_TEXT_NOT_FOUND" in
  detectDiagnosticActions trace w = (Return tt, w).
Proof.
  cbv zeta. apply detectDiagnosticActions_irrelevant.
  intros call Hin. apply list_elem_of_In in Hin.
  destruct Hin as [<-|[<-|[<-|[<-|[]]]]]; cbn.
  - by left.
  - right. left. discriminate.
  - by right; right.
  - by right; right.
Defined.

(** ** From a diagnostic call to an allowed retry *)

Lemma String_prefix_app s t r : String.prefix (s +:+ t) (s +:+ t +:+ r) = true.
Proof.
  induction s as [|c s IH]; simpl.
  - induction t as [|c t IH]; simpl; [by destruct r|].
    by destruct (ascii_dec c c).
  - by destruct (ascii_dec c c).
Qed.

Lemma generateToolKey_prefix toolName params key :
  generateToolKey toolName params = Return key →
  String.prefix (toolName +:+ ":") key = true.
Proof.
  unfold generateToolKey. destruct (JS.Object_keys params) as [keys|e]; [|done].
  cbn. intros [= <-]. apply String_prefix_app.
Qed.

(** X12.  Let a call of [replace] have a fingerprint (its parameters are
    such that [generateToolKey] returns a key), and let it fail with an
    error of code [EDIT_TEXT_NOT_FOUND] or [EDIT_MULTIPLE_MATCHES] whose
    context [filePath] is strictly equal to a truthy [resource].  Once a
    trace with a successful [read_file] of [resource] was reconciled, the
    failure no longer blocks: [recordFailure], then
    [detectDiagnosticActions], then [validateBeforeExecution] of the same
    call returns [allowed = true], whatever the clock reads. *)
Theorem read_file_lifts_block
    params key errorInfo resource callParams trace w :
  generateToolKey "replace" params = Return key →
  ToolErrorInfo.code errorInfo = "EDIT_TEXT_NOT_FOUND"
  ∨ ToolErrorInfo.code errorInfo = "EDIT_MULTIPLE_MATCHES" →
  JS.ToBoolean resource = true →
  JS.strict_equals (JS.optional_get (ToolErrorInfo.context errorInfo) "filePath")
    resource = true →
  ToolCall.mk "read_file" callParams true ∈ trace →
  JS.optional_get callParams "file_path" = resource →
  fst ((recordFailure "replace" params errorInfo;;
        detectDiagnosticActions trace;;
        validateBeforeExecution "replace" params) w)
  = Return (ValidationResult.mk true None None None).
Proof.
  intros Hkey Hcode Htruthy Hsame Hcall Hparams.
  pose proof (generateToolKey_prefix _ _ _ Hkey) as Hprefix.
  unfold mbind, M_bind. rewrite (recordFailure_Return _ _ _ _ _ Hkey).
  rewrite detectDiagnosticActions_run.
  rewrite (validateBeforeExecution_Return _ _ _ _ Hkey).
  destruct (recentFailures (this (cleaned _)) !! key) as [failure|] eqn:Hk;
    [|done].
  apply purge_lookup_Some in Hk as [Hk _]. cbn in Hk.
  rewrite reconcile_lookup, lookup_insert_eq in Hk. cbn in Hk.
  replace (existsb _ trace) with true in Hk.
  - injection Hk as <-. cbn. by rewrite andb_false_r.
  - symmetry. apply existsb_exists. eexists. split; [by apply list_elem_of_In|].
    unfold addresses, related. cbn. rewrite Hparams, Htruthy, Hsame.
    change (String.prefix "replace:" key) with (String.prefix ("replace" +:+ ":") key).
    rewrite Hprefix. cbn. by destruct Hcode as [-> | ->].
Qed.

Lemma read_file_lifts_block_witness :
  let failure := recordFailure "replace" (file "a.txt")
                   (error_on "EDIT_MULTIPLE_MATCHES" "a.txt") in
  let read := ToolCall.mk "read_file" (file_path "a.txt") true in
  generateToolKey "replace" (file "a.txt") = Return (dq "replace:{'file':'a.txt'}")
  ∧ fst ((failure;; validateBeforeExecution "replace" (file "a.txt")) fresh)
    = Return (blocked 2000
                (FailureInfo.mk 1000 (error_on "EDIT_MULTIPLE_MATCHES" "a.txt")
                   ["read file first"] false))
  ∧ fst ((failure;; detectDiagnosticActions [read];;
          validateBeforeExecution "replace" (file "a.txt")) fresh)
    = Return (ValidationResult.mk true None None None).
Proof.
  cbv zeta. split; [reflexivity|]. split; [vm_compute; reflexivity|].
  apply (read_file_lifts_block (file "a.txt") (dq "replace:{'file':'a.txt'}")
           (error_on "EDIT_MULTIPLE_MATCHES" "a.txt") (JS.Str "a.txt")
           (file_path "a.txt")); try reflexivity.
  - by right.
  - apply list_elem_of_In. by left.
Defined.

(** ** The shape of a fingerprint *)

(** X13.  Whenever [generateToolKey] returns a key for a tool name and
    parameters, the key starts with the tool name and a colon, and no other
    tool name returns this key for the same parameters. *)
Theorem generateToolKey_scoped_by_tool_name toolName params key :
  generateToolKey toolName params = Return key →
  String.prefix (toolName +:+ ":") key = true
  ∧ ∀ toolName' key',
      toolName' ≠ toolName →
      generateToolKey toolName' params = Return key' → key' ≠ key.
Proof.
  intros Hkey. split; [by eapply generateToolKey_prefix|].
  intros toolName' key' Hne Hkey'.
  by apply (generateToolKey_scoped toolName' toolName params).
Qed.

Lemma generateToolKey_scoped_by_tool_name_witness :
  generateToolKey "replace" (file "a.txt") = Return (dq "replace:{'file':'a.txt'}")
  ∧ generateToolKey "write_file" (file "a.txt")
    = Return (dq "write_file:{'file':'a.txt'}")
  ∧ String.prefix "replace:" (dq "replace:{'file':'a.txt'}") = true
  ∧ dq "write_file:{'file':'a.txt'}" ≠ dq "replace:{'file':'a.txt'}".
Proof.
  destruct (generateToolKey_scoped_by_tool_name "replace" (file "a.txt")
              (dq "replace:{'file':'a.txt'}") eq_refl) as (Hprefix & Hscoped).
  split; [reflexivity|]. split; [reflexivity|]. split; [exact Hprefix|].
  apply (Hscoped "write_file"); [discriminate|reflexivity].
Defined.

(** ** Fingerprints tell strings apart *)

Lemma unquote_quote_code_unit c rest :
  unquote_code_units (JS.quote_code_unit c +:+ rest)
  = String c <$> unquote_code_units rest.
Proof. destruct c as [[] [] [] [] [] [] [] []]; reflexivity. Qed.

Lemma unquote_quote_code_units s :
  unquote_code_units (JS.quote_code_units s) = Some s.
Proof.
  induction s as [|c s IH]; [done|].
  cbn [JS.quote_code_units]. by rewrite unquote_quote_code_unit, IH.
Qed.

Lemma String_app_inj_l s t1 t2 : s +:+ t1 = s +:+ t2 → t1 = t2.
Proof. induction s as [|c s IH]; simpl; [done|]. intros [= ?]. auto. Qed.

Lemma QuoteJSONString_inj s s' :
  JS.QuoteJSONString s = JS.QuoteJSONString s' → s = s'.
Proof.
  unfold JS.QuoteJSONString. intros [= Heq].
  apply String_app_inj_r in Heq.
  apply (f_equal unquote_code_units) in Heq.
  rewrite !unquote_quote_code_units in Heq. by injection Heq.
Qed.

(** X14.  Quoting keeps strings apart, and so does the fingerprint: a call
    whose parameters are a string, or an object whose one property is a
    string, has the fingerprint of another such call of the same tool only
    when the two strings are equal.  A failure recorded for one file thus
    never blocks the same call on another file. *)
Theorem generateToolKey_distinguishes_strings toolName name s s' :
  s ≠ s' →
  generateToolKey toolName (JS.Str s) ≠ generateToolKey toolName (JS.Str s')
  ∧ generateToolKey toolName (JS.Obj [(name, JS.Str s)])
    ≠ generateToolKey toolName (JS.Obj [(name, JS.Str s')]).
Proof.
  intros Hne. split.
  - unfold generateToolKey, JS.JSON_stringify.
    cbn [JS.Object_keys mbind outcome_bind mret outcome_ret
         JS.SerializeJSONProperty JS.template default].
    intros [= Heq]. apply String_app_inj_l in Heq. injection Heq as Heq.
    apply Hne, QuoteJSONString_inj. unfold JS.QuoteJSONString. by f_equal.
  - unfold generateToolKey, JS.JSON_stringify.
    cbn [JS.Object_keys mbind outcome_bind mret outcome_ret fmap list_fmap fst].
    change (JS.Array_sort [name]) with [name].
    change (JS.PropertyList [name]) with [name].
    rewrite !Serialize_Obj. cbn [map fst snd JS.SerializeJSONProperty].
    cbn [omap list_omap]. unfold JS.member, JS.Get_serialized. cbn [JS.own].
    rewrite String.eqb_refl.
    cbn [fmap option_fmap option_map String.concat JS.template default].
    intros [= Heq]. apply String_app_inj_l in Heq. injection Heq as Heq.
    apply String_app_inj_r, String_app_inj_l in Heq. injection Heq as Heq.
    apply Hne, QuoteJSONString_inj. unfold JS.QuoteJSONString. by f_equal.
Qed.

Lemma generateToolKey_distinguishes_strings_witness :
  "a.txt" ≠ "b.txt"
  ∧ generateToolKey "replace" (file "a.txt") ≠ generateToolKey "replace" (file "b.txt")
  ∧ fst (validateBeforeExecution "replace" (file "b.txt")
           (failed "EDIT_TEXT_NOT_FOUND" "a.txt"))
    = Return (ValidationResult.mk true None None None).
Proof.
  split; [discriminate|]. split; [|vm_compute; reflexivity].
  apply (generateToolKey_distinguishes_strings "replace" "file" "a.txt" "b.txt").
  discriminate.
Defined.

(** ** What sequences of calls keep *)

Lemma settled_refl m : settled m m.
Proof. intros key failure Hk. exists failure. auto. Qed.

Lemma settled_trans m1 m2 m3 : settled m1 m2 → settled m2 m3 → settled m1 m3.
Proof.
  intros H12 H23 key f3 Hk3.
  destruct (H23 key f3 Hk3) as (f2 & Hk2 & Ht & He & Hr & Ha).
  destruct (H12 key f2 Hk2) as (f1 & Hk1 & Ht' & He' & Hr' & Ha').
  exists f1. repeat split; try congruence. auto.
Qed.

Lemma settled_purge now maxAge m : settled m (purge now maxAge m).
Proof.
  intros key failure Hk. apply purge_lookup_Some in Hk as [Hk _].
  exists failure. auto.
Qed.

Lemma settled_delete key m : settled m (delete key m).
Proof.
  intros key' failure Hk. apply lookup_delete_Some in Hk as [_ Hk].
  exists failure. auto.
Qed.

Lemma settled_insert_addressed key failure m :
  m !! key = Some failure →
  settled m (<[key := FailureInfo.set_wasAddressed true failure]> m).
Proof.
  intros Hkey key' failure' Hk. destruct (decide (key = key')) as [<-|Hne].
  - rewrite lookup_insert_eq in Hk. injection Hk as <-. exists failure. auto.
  - rewrite lookup_insert_ne in Hk by done. exists failure'. auto.
Qed.

Lemma settled_reconcile trace m : settled m (reconcile trace m).
Proof.
  intros key failure' Hk. rewrite reconcile_lookup in Hk.
  destruct (m !! key) as [failure|]; [|done]. cbn in Hk. injection Hk as <-.
  exists failure. split; [done|].
  destruct (existsb _ trace); cbn; auto.
Qed.

Lemma filter_length_is_active_frame failures w :
  ∃ n w', filter_length is_active failures w = (Return n, w')
          ∧ this w' = this w ∧ clock w' = clock w ∧ (reads w ≤ reads w')%nat.
Proof.
  revert w. induction failures as [|f failures IH]; intros w; simpl.
  - exists O, w. auto.
  - unfold mbind, M_bind. rewrite is_active_eq.
    destruct (FailureInfo.wasAddressed f).
    + destruct (IH w) as (n & w' & -> & ? & ? & ?). eauto 10.
    + destruct (IH (tick w)) as (n & w' & -> & ? & ? & Hreads).
      cbn in Hreads. eexists _, w'. split; [reflexivity|].
      repeat split; try done. lia.
Qed.

(** The part of the world that no method writes, and the count of clock
    readings, which only grows. *)
Lemma perform_frame w op :
  clock (perform w op) = clock w
  ∧ (reads w ≤ reads (perform w op))%nat
  ∧ failureTimeoutMs (this (perform w op)) = failureTimeoutMs (this w)
  ∧ maxFailureAge (this (perform w op)) = maxFailureAge (this w).
Proof.
  destruct op as [t p|t p e|t p|t p|trace| |]; cbn [perform].
  - destruct (generateToolKey t p) as [key|e] eqn:Hkey.
    + rewrite (validateBeforeExecution_Return _ _ _ _ Hkey).
      destruct (recentFailures (this (cleaned w)) !! key); cbn; repeat split; lia.
    + rewrite (validateBeforeExecution_Throw _ _ _ _ Hkey). cbn. repeat split; lia.
  - destruct (generateToolKey t p) as [key|e'] eqn:Hkey.
    + rewrite (recordFailure_Return _ _ _ _ _ Hkey). cbn. repeat split; lia.
    + by rewrite (recordFailure_Throw _ _ _ _ _ Hkey).
  - destruct (generateToolKey t p) as [key|e] eqn:Hkey.
    + by rewrite (recordSuccess_Return _ _ _ _ Hkey).
    + by rewrite (recordSuccess_Throw _ _ _ _ Hkey).
  - destruct (generateToolKey t p) as [key|e] eqn:Hkey.
    + rewrite (markFailureAddressed_Return _ _ _ _ Hkey). cbn.
      by destruct (recentFailures (this w) !! key).
    + by rewrite (markFailureAddressed_Throw _ _ _ _ Hkey).
  - by rewrite detectDiagnosticActions_run.
  - destruct (filter_length_is_active_frame
                ((map_to_list (recentFailures (this (cleaned w)))).*2) (cleaned w))
      as (n & w' & Hn & Hthis & Hclock & Hreads).
    rewrite (getFailureStats_eq _ _ _ Hn). cbn [snd].
    rewrite Hthis, Hclock. cbn in *. repeat split; lia.
  - done.
Qed.

Lemma perform_settled w op :
  is_Failure op = false →
  settled (recentFailures (this w)) (recentFailures (this (perform w op))).
Proof.
  destruct op as [t p|t p e|t p|t p|trace| |]; cbn [perform is_Failure];
    intros Hop; [|done| | | | |].
  - destruct (generateToolKey t p) as [key|e] eqn:Hkey.
    + rewrite (validateBeforeExecution_Return _ _ _ _ Hkey).
      destruct (recentFailures (this (cleaned w)) !! key); cbn; apply settled_purge.
    + rewrite (validateBeforeExecution_Throw _ _ _ _ Hkey). apply settled_purge.
  - destruct (generateToolKey t p) as [key|e] eqn:Hkey.
    + rewrite (recordSuccess_Return _ _ _ _ Hkey). apply settled_delete.
    + rewrite (recordSuccess_Throw _ _ _ _ Hkey). apply settled_refl.
  - destruct (generateToolKey t p) as [key|e] eqn:Hkey.
    + rewrite (markFailureAddressed_Return _ _ _ _ Hkey). cbn [snd].
      destruct (recentFailures (this w) !! key) as [failure|] eqn:Hk.
      * by apply settled_insert_addressed.
      * apply settled_refl.
    + rewrite (markFailureAddressed_Throw _ _ _ _ Hkey). apply settled_refl.
  - rewrite detectDiagnosticActions_run. apply settled_reconcile.
  - destruct (filter_length_is_active_frame
                ((map_to_list (recentFailures (this (cleaned w)))).*2) (cleaned w))
      as (n & w' & Hn & Hthis & _).
    rewrite (getFailureStats_eq _ _ _ Hn). cbn [snd]. rewrite Hthis.
    apply settled_purge.
  - intros key failure Hk. cbn in Hk. by rewrite lookup_empty in Hk.
Qed.

Lemma perform_well_stamped w op : well_stamped w → well_stamped (perform w op).
Proof.
  intros Hw.
  assert (∀ w', settled (recentFailures (this w)) (recentFailures (this w')) →
            clock w' = clock w → (reads w ≤ reads w')%nat → well_stamped w')
    as Hsettled.
  { intros w' Hs Hclock Hreads key failure' Hk.
    destruct (Hs key failure' Hk) as (failure & Hk0 & Ht & He & Hr & _).
    destruct (Hw key failure Hk0) as [(i & Hi & Hstamp) Hactions].
    split; [|congruence]. exists i. split; [lia|congruence]. }
  destruct (is_Failure op) eqn:Hop.
  - destruct op as [| t p e | | | | |]; try done. cbn [perform].
    destruct (generateToolKey t p) as [key|e'] eqn:Hkey.
    + rewrite (recordFailure_Return _ _ _ _ _ Hkey). cbn [snd].
      intros key' failure' Hk. cbn in Hk.
      destruct (decide (key = key')) as [<-|Hne].
      * rewrite lookup_insert_eq in Hk. injection Hk as <-. cbn.
        split; [|done]. exists (reads w). split; [lia|done].
      * rewrite lookup_insert_ne in Hk by done.
        destruct (Hw key' failure' Hk) as [(i & Hi & Hstamp) Hactions].
        split; [|done]. exists i. cbn. split; [lia|done].
    + by rewrite (recordFailure_Throw _ _ _ _ _ Hkey).
  - destruct (perform_frame w op) as (Hclock & Hreads & _).
    by apply Hsettled; [apply perform_settled|..].
Qed.

(** X15.  However the owner of the guard strings together validations,
    successes, manual addressals, reconciliation passes, statistics queries
    and resets, without recording a failure, no record is created: a record
    stored afterwards was stored before under the same key, with the same
    timestamp, error information and required actions, and if it was
    addressed it still is. *)
Theorem records_only_settle ops w :
  (∀ op, op ∈ ops → is_Failure op = false) →
  ∀ key failure',
    recentFailures (this (perform_all ops w)) !! key = Some failure' →
    ∃ failure,
      recentFailures (this w) !! key = Some failure
      ∧ FailureInfo.timestamp failure' = FailureInfo.timestamp failure
      ∧ FailureInfo.errorInfo failure' = FailureInfo.errorInfo failure
      ∧ FailureInfo.requiredActions failure' = FailureInfo.requiredActions failure
      ∧ (FailureInfo.wasAddressed failure = true →
         FailureInfo.wasAddressed failure' = true).
Proof.
  intros Hops. change (settled (recentFailures (this w))
                         (recentFailures (this (perform_all ops w)))).
  revert w. induction ops as [|op ops IH]; intros w; [apply settled_refl|].
  cbn. eapply settled_trans.
  - apply (perform_settled w op), Hops, list_elem_of_here.
  - apply IH. intros op' Hin. by apply Hops, list_elem_of_further.
Qed.

Lemma records_only_settle_witness :
  let ops := [Addressed "replace" (file "a.txt");
              Validate "replace" (file "b.txt");
              Diagnose [ToolCall.mk "read_file" (file_path "b.txt") true];
              Stats] in
  let w := two_failures "EDIT_TEXT_NOT_FOUND" in
  (∀ op, op ∈ ops → is_Failure op = false)
  ∧ FailureInfo.wasAddressed
    <$> recentFailures (this (perform_all ops w)) !! dq "replace:{'file':'a.txt'}"
    = Some true
  ∧ ∃ failure,
      recentFailures (this w) !! dq "replace:{'file':'a.txt'}" = Some failure
      ∧ FailureInfo.timestamp failure = 1000.
Proof.
  cbv zeta.
  assert (∀ op, op ∈ [Addressed "replace" (file "a.txt");
                      Validate "replace" (file "b.txt");
                      Diagnose [ToolCall.mk "read_file" (file_path "b.txt") true];
                      Stats] → is_Failure op = false) as Hops.
  { intros op Hin. apply list_elem_of_In in Hin.
    destruct Hin as [<-|[<-|[<-|[<-|[]]]]]; reflexivity. }
  split; [exact Hops|]. split; [vm_compute; reflexivity|].
  destruct (records_only_settle _ (two_failures "EDIT_TEXT_NOT_FOUND") Hops
              (dq "replace:{'file':'a.txt'}")
              (FailureInfo.mk 1000 (error_on "EDIT_TEXT_NOT_FOUND" "a.txt")
                 ["read file first"] true))
    as (failure & Hstored & Htime & _).
  { vm_compute. reflexivity. }
  exists failure. split; [exact Hstored | symmetry; exact Htime].
Defined.

(** X16.  On a guard that started empty, after any sequence of calls of its
    methods, every stored record was stamped by a clock reading that was
    taken before ([recordFailure] took it) and lists the required actions of
    its own error; the clock and the two windows are those the guard
    started with. *)
Theorem records_well_stamped ops cooldown retention clock0 :
  let start := mkWorld (constructor cooldown retention) clock0 0 in
  let w := perform_all ops start in
  (∀ key failure, recentFailures (this w) !! key = Some failure →
     (∃ i, (i < reads w)%nat ∧ FailureInfo.timestamp failure = clock0 i)
     ∧ FailureInfo.requiredActions failure
       = ToolErrorInfo.requiredActions (FailureInfo.errorInfo failure))
  ∧ clock w = clock0
  ∧ failureTimeoutMs (this w) = default 30000 cooldown
  ∧ maxFailureAge (this w) = default 300000 retention.
Proof.
  cbv zeta.
  set (start := mkWorld (constructor cooldown retention) clock0 0).
  assert (∀ ops w, well_stamped w →
            well_stamped (perform_all ops w)
            ∧ clock (perform_all ops w) = clock w
            ∧ failureTimeoutMs (this (perform_all ops w))
              = failureTimeoutMs (this w)
            ∧ maxFailureAge (this (perform_all ops w))
              = maxFailureAge (this w)) as Hall.
  { clear. intros ops. induction ops as [|op ops IH]; intros w Hw; [done|].
    change (perform_all (op :: ops) w) with (perform_all ops (perform w op)).
    destruct (IH (perform w op)) as (Hstamped & Hclock & Htimeout & Hage);
      [by apply perform_well_stamped|].
    destruct (perform_frame w op) as (Hclock' & _ & Htimeout' & Hage').
    split; [done|]. split; [congruence|]. split; congruence. }
  destruct (Hall ops start) as (Hstamped & Hclock & Htimeout & Hage).
  { intros key failure Hk. cbn in Hk. by rewrite lookup_empty in Hk. }
  split; [|done].
  intros key failure Hk. destruct (Hstamped key failure Hk) as [(i & Hi & Ht) Hr].
  split; [|done]. exists i. split; [done|]. by rewrite Ht, Hclock.
Qed.

(** ** The build information and the version string *)

Lemma String_prefix_app_r s r : String.prefix s (s +:+ r) = true.
Proof.
  induction s as [|c s IH]; simpl; [by destruct r|].
  by destruct (ascii_dec c c).
Qed.

Lemma String_prefix_refl s : String.prefix s s = true.
Proof. induction s as [|c s IH]; simpl; [done|]. by destruct (ascii_dec c c). Qed.

Lemma String_app_assoc a b c : (a +:+ b) +:+ c = a +:+ b +:+ c.
Proof.
  induction a as [|x a IH]; [done|].
  change (String x ((a +:+ b) +:+ c) = String x (a +:+ b +:+ c)). by f_equal.
Qed.

Lemma String_prefix_app_l s t r :
  String.prefix s t = true → String.prefix s (t +:+ r) = true.
Proof.
  revert t. induction s as [|c s IH]; intros [|d t]; simpl; try done.
  - by destruct r.
  - destruct (ascii_dec c d); [apply IH|done].
Qed.

Lemma substring_length n s : (String.length (String.substring 0 n s) ≤ n)%nat.
Proof.
  revert s. induction n as [|n IH]; intros [|c s]; simpl; try lia.
  specialize (IH s). lia.
Qed.

Lemma substring_prefix n s : String.prefix (String.substring 0 n s) s = true.
Proof.
  revert s. induction n as [|n IH]; intros [|c s]; simpl; try done.
  by destruct (ascii_dec c c).
Qed.

Lemma substring_short n s :
  (String.length s ≤ n)%nat → String.substring 0 n s = s.
Proof.
  revert s. induction n as [|n IH]; intros [|c s]; simpl; try done; [lia|].
  intros Hle. f_equal. apply IH. lia.
Qed.

Lemma trimEnd_newline s :
  Text.no_white_space s = true → Text.trimEnd (s +:+ Text.newline) = s.
Proof.
  induction s as [|c s IH]; [done|]. cbn [Text.no_white_space].
  intros [Hc Hs]%andb_true_iff. apply negb_true_iff in Hc.
  change (String c s +:+ Text.newline) with (String c (s +:+ Text.newline)).
  cbn [Text.trimEnd]. rewrite (IH Hs), Hc. by destruct s.
Qed.

Lemma trim_newline s :
  Text.no_white_space s = true → Text.trim (s +:+ Text.newline) = s.
Proof.
  intros Hs. destruct s as [|c s]; [done|]. unfold Text.trim.
  assert (Text.trimStart (String c s +:+ Text.newline)
          = String c s +:+ Text.newline) as ->.
  { pose proof Hs as Hc. cbn [Text.no_white_space] in Hc.
    apply andb_true_iff in Hc as [Hc _]. apply negb_true_iff in Hc.
    change (String c s +:+ Text.newline) with (String c (s +:+ Text.newline)).
    cbn [Text.trimStart]. by rewrite Hc. }
  by apply trimEnd_newline.
Qed.

(** X17.  [getCliVersion] never gives the empty string.  It gives the
    environment variable when that is set and not empty, else the version
    of the package when there is one and it is not empty, else
    [unknown]. *)
Theorem getCliVersion_precedence CLI_VERSION pkgJson_version :
  getCliVersion CLI_VERSION pkgJson_version ≠ EmptyString
  ∧ (Text.truthy CLI_VERSION = true →
     Some (getCliVersion CLI_VERSION pkgJson_version) = CLI_VERSION)
  ∧ (Text.truthy CLI_VERSION = false → Text.truthy pkgJson_version = true →
     Some (getCliVersion CLI_VERSION pkgJson_version) = pkgJson_version)
  ∧ (Text.truthy CLI_VERSION = false → Text.truthy pkgJson_version = false →
     getCliVersion CLI_VERSION pkgJson_version = "unknown").
Proof.
  unfold getCliVersion, Text.or_else, Text.or_string, Text.truthy.
  destruct CLI_VERSION as [e|], pkgJson_version as [v|]; cbn;
    repeat match goal with
           | |- context [String.eqb ?s EmptyString] =>
               destruct (String.eqb_spec s EmptyString); cbn
           end;
    repeat split; try done; try congruence.
Qed.

Lemma getCliVersion_precedence_witness :
  Text.truthy (Some EmptyString) = false
  ∧ Text.truthy (Some "0.1.9") = true
  ∧ Some (getCliVersion (Some EmptyString) (Some "0.1.9")) = Some "0.1.9"
  ∧ getCliVersion (Some EmptyString) None = "unknown".
Proof.
  destruct (getCliVersion_precedence (Some EmptyString) (Some "0.1.9"))
    as (_ & _ & Hpkg & _).
  destruct (getCliVersion_precedence (Some EmptyString) None)
    as (_ & _ & _ & Hunknown).
  split; [reflexivity|]. split; [reflexivity|].
  split; [apply Hpkg; reflexivity | apply Hunknown; reflexivity].
Defined.

(** X18.  Whatever it is given, [formatVersionInfo] starts with the line
    [Gemini CLI v] followed by the version; and a branch is shown only with
    a commit: without a commit (absent or empty) the output does not depend
    on the branch. *)
Theorem formatVersionInfo_first_line toLocaleString info :
  String.prefix ("Gemini CLI v" +:+ VersionInfo.version info)
    (formatVersionInfo toLocaleString info) = true
  ∧ ∀ gitBranch,
      Text.truthy (VersionInfo.gitCommit info) = false →
      formatVersionInfo toLocaleString
        (VersionInfo.mk (VersionInfo.version info) (VersionInfo.buildTime info)
           (VersionInfo.gitCommit info) gitBranch
           (VersionInfo.nodeVersion info) (VersionInfo.platform info))
      = formatVersionInfo toLocaleString info.
Proof.
  split.
  - unfold formatVersionInfo.
    repeat match goal with
           | |- context [if ?b then _ else _] => destruct b
           | |- context [match ?o with Some _ => _ | None => _ end] => destruct o
           end;
      repeat first [apply String_prefix_refl | apply String_prefix_app_r
                   | apply String_prefix_app_l].
  - intros gitBranch Hcommit. unfold formatVersionInfo. cbn.
    by rewrite Hcommit.
Qed.

Lemma formatVersionInfo_first_line_witness :
  let info := VersionInfo.mk "0.1.9" None (Some EmptyString) (Some "main")
                (Some "v22.16.0") (Some "linux-x64") in
  Text.truthy (VersionInfo.gitCommit info) = false
  ∧ formatVersionInfo id info
    = "Gemini CLI v0.1.9" +:+ Text.newline +:+ "Platform: linux-x64"
      +:+ Text.newline +:+ "Node: v22.16.0"
  ∧ formatVersionInfo id
      (VersionInfo.mk "0.1.9" None (Some EmptyString) None
         (Some "v22.16.0") (Some "linux-x64"))
    = formatVersionInfo id info.
Proof.
  cbv zeta. split; [reflexivity|]. split; [reflexivity|].
  exact (proj2 (formatVersionInfo_first_line id
                  (VersionInfo.mk "0.1.9" None (Some EmptyString) (Some "main")
                     (Some "v22.16.0") (Some "linux-x64")))
           None eq_refl).
Defined.

(** X19.  Without build information the formatted version is the single
    line [Gemini CLI v] and the version of [getCliVersion].  With the build
    information that [getBuildInfo] makes when both [git] commands throw,
    it has the build time, the line [Git: unknown@unknown], the platform
    (the platform and the architecture joined by a dash) and the node
    version, in this order. *)
Theorem formatVersionInfo_of_getVersionInfo
    toLocaleString CLI_VERSION pkgJson_version
    toISOString e e' process_version process_platform process_arch :
  toISOString ≠ EmptyString →
  process_version ≠ EmptyString →
  let version := getCliVersion CLI_VERSION pkgJson_version in
  formatVersionInfo toLocaleString
    (getVersionInfo CLI_VERSION pkgJson_version None)
  = "Gemini CLI v" +:+ version
  ∧ formatVersionInfo toLocaleString
      (getVersionInfo CLI_VERSION pkgJson_version
         (Some (getBuildInfo toISOString (Throw e) (Throw e')
                  process_version process_platform process_arch)))
    = ((("Gemini CLI v" +:+ version
         +:+ Text.newline +:+ "Built: " +:+ toLocaleString toISOString)
        +:+ Text.newline +:+ "Git: unknown@unknown")
       +:+ Text.newline +:+ "Platform: "
       +:+ process_platform +:+ "-" +:+ process_arch)
      +:+ Text.newline +:+ "Node: " +:+ process_version.
Proof.
  intros Htime Hversion. cbv zeta. split; [done|].
  unfold formatVersionInfo, getVersionInfo, getBuildInfo, Text.truthy.
  cbn [VersionInfo.version VersionInfo.buildTime VersionInfo.gitCommit
       VersionInfo.gitBranch VersionInfo.nodeVersion VersionInfo.platform
       BuildInfo.buildTime BuildInfo.gitCommit BuildInfo.gitBranch
       BuildInfo.nodeVersion BuildInfo.platform JS.template default].
  apply String.eqb_neq in Htime, Hversion. rewrite Htime, Hversion.
  assert (String.eqb (process_platform +:+ "-" +:+ process_arch) EmptyString
          = false) as ->.
  { apply String.eqb_neq. by destruct process_platform. }
  change (String.substring 0 8 "unknown") with "unknown".
  change (String.eqb "unknown" EmptyString) with false.
  cbn [negb id]. rewrite !String_app_assoc. reflexivity.
Qed.

Lemma formatVersionInfo_of_getVersionInfo_witness :
  "2025-07-13T12:22:47.199Z" ≠ EmptyString
  ∧ "v22.16.0" ≠ EmptyString
  ∧ formatVersionInfo id (getVersionInfo None (Some "0.1.9") None)
    = "Gemini CLI v0.1.9"
  ∧ formatVersionInfo id (getVersionInfo None (Some "0.1.9") (Some BUILD_INFO))
    = "Gemini CLI v0.1.9" +:+ Text.newline +:+ "Built: 2025-07-13T12:22:47.199Z"
      +:+ Text.newline +:+ "Git: main@eca8c282"
      +:+ Text.newline +:+ "Platform: linux-x64"
      +:+ Text.newline +:+ "Node: v22.16.0".
Proof.
  split; [discriminate|]. split; [discriminate|].
  split; [|reflexivity].
  apply (formatVersionInfo_of_getVersionInfo id None (Some "0.1.9")
           "2025-07-13T12:22:47.199Z" (TypeError EmptyString)
           (TypeError EmptyString) "v22.16.0" "linux" "x64"); discriminate.
Defined.

(** X20.  The commit that [getBuildInfo] reports has at most eight code
    units and starts what [git] printed, trimmed; it is [unknown] when the
    command threw, as is the branch.  When [git] prints a hash without white
    space followed by a newline, the commit is the first eight code units of
    the hash (the whole hash when it is shorter). *)
Theorem getBuildInfo_short_commit
    toISOString head branch process_version process_platform process_arch :
  let info := getBuildInfo toISOString head branch
                process_version process_platform process_arch in
  (String.length (BuildInfo.gitCommit info) ≤ 8)%nat
  ∧ (∀ printed, head = Return printed →
       String.prefix (BuildInfo.gitCommit info) (Text.trim printed) = true
       ∧ ((String.length (Text.trim printed) ≤ 8)%nat →
          BuildInfo.gitCommit info = Text.trim printed))
  ∧ (∀ hash, Text.no_white_space hash = true →
       head = Return (hash +:+ Text.newline) →
       BuildInfo.gitCommit info = String.substring 0 8 hash)
  ∧ (∀ e, head = Throw e → BuildInfo.gitCommit info = "unknown")
  ∧ (∀ e, branch = Throw e → BuildInfo.gitBranch info = "unknown").
Proof.
  cbv zeta. unfold getBuildInfo. cbn [BuildInfo.gitCommit BuildInfo.gitBranch].
  split; [apply substring_length|]. split; [|split; [|split]].
  - intros printed ->. split; [apply substring_prefix | apply substring_short].
  - intros hash Hhash ->. by rewrite trim_newline.
  - by intros e ->.
  - by intros e ->.
Qed.

Lemma getBuildInfo_short_commit_witness :
  let hash := "eca8c2826f3b1d0a9c4e5f60718293a4b5c6d7e8" in
  Text.no_white_space hash = true
  ∧ getBuildInfo "2025-07-13T12:22:47.199Z" (Return (hash +:+ Text.newline))
      (Return ("main" +:+ Text.newline)) "v22.16.0" "linux" "x64"
    = BUILD_INFO
  ∧ BuildInfo.gitCommit
      (getBuildInfo "2025-07-13T12:22:47.199Z" (Return (hash +:+ Text.newline))
         (Return ("main" +:+ Text.newline)) "v22.16.0" "linux" "x64")
    = String.substring 0 8 hash.
Proof.
  cbv zeta. split; [reflexivity|]. split; [reflexivity|].
  destruct (getBuildInfo_short_commit "2025-07-13T12:22:47.199Z"
              (Return ("eca8c2826f3b1d0a9c4e5f60718293a4b5c6d7e8" +:+ Text.newline))
              (Return ("main" +:+ Text.newline)) "v22.16.0" "linux" "x64")
    as (_ & _ & Hhash & _).
  apply Hhash; reflexivity.
Defined.

(** ** Validation is repeatable *)

(** X21.  Validation does not consume or create a block: when every clock
    reading is [t], validating a call twice in a row returns what validating
    it once returns, and leaves the same map. *)
Theorem validateBeforeExecution_repeatable t toolName params key w :
  generateToolKey toolName params = Return key →
  (∀ i, (reads w ≤ i)%nat → clock w i = t) →
  let twice := (validateBeforeExecution toolName params;;
                validateBeforeExecution toolName params) w in
  fst twice = fst (validateBeforeExecution toolName params w)
  ∧ recentFailures (this (snd twice))
    = recentFailures (this (snd (validateBeforeExecution toolName params w))).
Proof.
  intros Hkey Hsteady. cbv zeta. unfold mbind, M_bind.
  assert (∀ w1, clock w1 = clock w → (reads w ≤ reads w1)%nat →
            maxFailureAge (this w1) = maxFailureAge (this w) →
            failureTimeoutMs (this w1) = failureTimeoutMs (this w) →
            recentFailures (this w1) = recentFailures (this (cleaned w)) →
            fst (validateBeforeExecution toolName params w1)
            = fst (validateBeforeExecution toolName params w)
            ∧ recentFailures (this (snd (validateBeforeExecution toolName params w1)))
              = recentFailures (this (cleaned w))) as Hagain.
  { intros w1 Hclock Hreads Hage Htimeout Hmap.
    assert (recentFailures (this (cleaned w1)) = recentFailures (this (cleaned w)))
      as Hcleaned.
    { unfold cleaned at 1. cbn. rewrite Hmap, Hage, Hclock.
      unfold cleaned. cbn. rewrite purge_purge.
      rewrite !Hsteady by lia. by rewrite Z.max_id. }
    rewrite !(validateBeforeExecution_Return _ _ _ _ Hkey), Hcleaned.
    destruct (recentFailures (this (cleaned w)) !! key) as [failure|];
      cbv zeta; cbn [fst snd]; rewrite ?this_tick; [|done].
    split; [|done]. rewrite Hclock, Htimeout.
    by rewrite (Hsteady (S (reads w1))), (Hsteady (S (reads w))) by lia. }
  pose proof (validateBeforeExecution_Return _ _ _ w Hkey) as Hfirst.
  destruct (recentFailures (this (cleaned w)) !! key) as [failure|] eqn:Hk;
    cbv zeta in Hfirst.
  - destruct (Hagain (tick (cleaned w))) as [Hresult Hmap]; cbn; try done; [lia|].
    rewrite Hfirst in Hresult |- *. cbn [fst snd]. by rewrite this_tick.
  - destruct (Hagain (cleaned w)) as [Hresult Hmap]; cbn; try done; [lia|].
    rewrite Hfirst in Hresult |- *. by cbn [fst snd].
Qed.

Lemma validateBeforeExecution_repeatable_witness :
  let w := at_time 5000 (failed "not_found" "x") in
  generateToolKey "replace" (file "x") = Return (dq "replace:{'file':'x'}")
  ∧ (∀ i, (reads w ≤ i)%nat → clock w i = 5000)
  ∧ fst (validateBeforeExecution "replace" (file "x") w)
    = Return (blocked 4000 (FailureInfo.mk 1000 (error_on "not_found" "x")
                              ["read file first"] false))
  ∧ fst ((validateBeforeExecution "replace" (file "x");;
          validateBeforeExecution "replace" (file "x")) w)
    = fst (validateBeforeExecution "replace" (file "x") w).
Proof.
  cbv zeta. split; [reflexivity|]. split; [done|].
  split; [vm_compute; reflexivity|].
  apply (validateBeforeExecution_repeatable 5000 "replace" (file "x")
           (dq "replace:{'file':'x'}") (at_time 5000 (failed "not_found" "x"))
           eq_refl).
  done.
Defined.

Lemma records_well_stamped_witness :
  let ops := [Failure "replace" (file "a.txt") (error_on "conflict" "a.txt");
              Validate "replace" (file "a.txt");
              Failure "replace" (file "a.txt") (error_on "not_found" "a.txt")] in
  let w := perform_all ops fresh in
  recentFailures (this w) !! dq "replace:{'file':'a.txt'}"
  = Some (FailureInfo.mk 4000 (error_on "not_found" "a.txt")
            ["read file first"] false)
  ∧ reads w = 4%nat
  ∧ ∃ i, (i < reads w)%nat ∧ 4000 = clock fresh i.
Proof.
  cbv zeta.
  assert (recentFailures
            (this (perform_all
                     [Failure "replace" (file "a.txt") (error_on "conflict" "a.txt");
                      Validate "replace" (file "a.txt");
                      Failure "replace" (file "a.txt")
                        (error_on "not_found" "a.txt")] fresh))
          !! dq "replace:{'file':'a.txt'}"
          = Some (FailureInfo.mk 4000 (error_on "not_found" "a.txt")
                    ["read file first"] false)) as Hstored.
  { vm_compute. reflexivity. }
  split; [exact Hstored|]. split; [vm_compute; reflexivity|].
  destruct (records_well_stamped
              [Failure "replace" (file "a.txt") (error_on "conflict" "a.txt");
               Validate "replace" (file "a.txt");
               Failure "replace" (file "a.txt") (error_on "not_found" "a.txt")]
              None None (clock fresh)) as (Hstamped & _).
  destruct (Hstamped _ _ Hstored) as [(i & Hi & Ht) _].
  exists i. split; [exact Hi | exact Ht].
Defined.
